(** * Spiralis: an ASCII spiral-galaxy animation (src/main.cpp)

    A shallow embedding of the simulation and rasterisation code of
    [main.cpp]: [Vec2], [Particle], [Star] and the [Galaxy] class with its
    constructor, [update] and the render passes.

    The program computes with C++ [double] and [int].  The code is embedded
    once, over an interface [Num.Arith] of the operations it uses on
    [double]; two instances are given:

    - [Real]: exact arithmetic on the real numbers, the idealisation under
      which the general statements below are proved;
    - [Binary64]: IEEE 754 binary64 through Rocq's primitive floats, the
      arithmetic the compiled program runs, used to evaluate the code on
      concrete inputs.

    [int] values are integers [Z]; [static_cast<int>] of a [double] truncates
    toward zero and is undefined when the result does not fit an [int],
    which the embedding renders as [None]. *)

From Stdlib Require Import ZArith QArith Floats Reals Lra Lia Ascii String.
From Stdlib Require Import DecimalString.
From stdpp Require Import base decidable option list.


(** ** The arithmetic of [double] *)

Module Num.

Class Arith : Type := {
  num : Type;
  (** a decimal literal of the source text, such as [0.1] or [3.0] *)
  lit : Q -> num;
  (** [constexpr double PI = 3.14159265358979323846] *)
  PI : num;
  add : num -> num -> num;
  sub : num -> num -> num;
  mul : num -> num -> num;
  div : num -> num -> num;
  neg : num -> num;
  (** [sqrt], [cos] and [sin] of <cmath> *)
  sqrt : num -> num;
  cos : num -> num;
  sin : num -> num;
  (** the comparisons [a > b] and [a < b] *)
  gt : num -> num -> bool;
  lt : num -> num -> bool;
  (** the conversion of an [int] to [double] *)
  of_int : Z -> num;
  (** [static_cast<int>]: truncation toward zero, [None] where the C++
      standard leaves the conversion undefined *)
  to_int : num -> option Z
}.

End Num.

Declare Scope num_scope.
Delimit Scope num_scope with num.
Bind Scope num_scope with Num.num.
Infix "+" := Num.add : num_scope.
Infix "-" := Num.sub : num_scope.
Infix "*" := Num.mul : num_scope.
Infix "/" := Num.div : num_scope.
Notation "- a" := (Num.neg a) : num_scope.
Infix ">?" := Num.gt (at level 70, no associativity) : num_scope.
Infix "<?" := Num.lt (at level 70, no associativity) : num_scope.
Notation "# q" := (Num.lit q%Q) (at level 1, q at level 0, format "# q") : num_scope.

(** The range of a 32-bit [int]. *)
Definition INT_MIN : Z := - 2 ^ 31.
Definition INT_MAX : Z := 2 ^ 31 - 1.
Definition in_int_range (z : Z) : bool := (INT_MIN <=? z)%Z && (z <=? INT_MAX)%Z.

(** *** Exact real arithmetic *)

#[global] Instance Rlt_decision : RelDecision Rlt := Rlt_dec.
#[global] Instance Rle_decision : RelDecision Rle := Rle_dec.

(** Truncation toward zero of a real number. *)
Definition Rtrunc (r : R) : Z :=
  if decide (0 <= r)%R then Zfloor r else Zceil r.

Definition Real : Num.Arith := {|
  Num.num := R;
  Num.lit := Q2R;
  Num.PI := Rtrigo1.PI;
  Num.add := Rplus;
  Num.sub := Rminus;
  Num.mul := Rmult;
  Num.div := Rdiv;
  Num.neg := Ropp;
  Num.sqrt := R_sqrt.sqrt;
  Num.cos := Rtrigo_def.cos;
  Num.sin := Rtrigo_def.sin;
  Num.gt := fun a b => bool_decide (b < a)%R;
  Num.lt := fun a b => bool_decide (a < b)%R;
  Num.of_int := IZR;
  Num.to_int := fun r => let z := Rtrunc r in
                         if in_int_range z then Some z else None
|}.

(** *** IEEE 754 binary64 *)

Definition float_of_Z (z : Z) : float :=
  match z with
  | Z0 => 0%float
  | Zpos _ => PrimFloat.of_uint63 (Uint63.of_Z z)
  | Zneg p => PrimFloat.opp (PrimFloat.of_uint63 (Uint63.of_Z (Zpos p)))
  end.

(** The integer part of a float: [m * 2^e] shifted down to the units, with
    the sign put back.  Infinities and NaN have none. *)
Definition float_trunc (f : float) : option Z :=
  match Prim2SF f with
  | S754_zero _ => Some 0%Z
  | S754_finite s m e =>
      let a := Z.shiftl (Zpos m) e in Some (if s then (- a)%Z else a)
  | S754_infinity _ | S754_nan => None
  end.

(** [cos] and [sin] belong to the C library, which computes them to within
    one unit in the last place.  This instance takes the correctly rounded
    value, which is what the library returns at all but a few arguments in
    a thousand: the argument is reduced by quarter turns in fixed point,
    with pi to 1536 binary places from Machin's formula, the Taylor series
    is summed with 160 binary places, and the sum is rounded to the nearest
    double, ties to even.  At the argument 0 the results are exactly 1 and
    0; infinities and NaN give NaN. *)
Fixpoint atan_inv_series (fuel : nat) (n2 k x sum : Z) (neg : bool) : Z :=
  match fuel with
  | O => sum
  | S fuel' =>
      let x' := (x / n2)%Z in
      if (x' =? 0)%Z then sum
      else
        let t := (x' / k)%Z in
        atan_inv_series fuel' n2 (k + 2) x' (if neg then sum - t else sum + t)%Z (negb neg)
  end.

(** [atan (1 / n)] scaled by [one], from its alternating series. *)
Definition atan_inv (one n : Z) : Z :=
  let x := (one / n)%Z in atan_inv_series 2000 (n * n) 3 x x true.

(** [floor (pi * 2^1536)], by [pi = 16 atan (1/5) - 4 atan (1/239)] with 64
    guard bits. *)
Definition PI_BIG : Z :=
  Eval vm_compute in
    (let one := Z.shiftl 1 1600 in
     Z.shiftr (16 * atan_inv one 5 - 4 * atan_inv one 239) 64).

(** The binary places of the working precision. *)
Definition TRIG_W : Z := 160.

(** [m * 2^e] reduced to a quarter turn: the quadrant, whether the rest
    [t] of the quarter was replaced by [pi / 2 - t] to bring it under
    [pi / 4], and that value with [TRIG_W] binary places.  The reduction
    carries 96 places more, and as many again as the argument has integer
    bits. *)
Definition trig_reduce (m : positive) (e : Z) : Z * bool * Z :=
  let S := (256 + Z.max 0 e)%Z in
  let X := Z.shiftl (Zpos m) (e + S) in
  let two_pi := Z.shiftr PI_BIG (1535 - S) in
  let pi := Z.shiftr PI_BIG (1536 - S) in
  let half_pi := Z.shiftr PI_BIG (1537 - S) in
  let R := if (X <? two_pi)%Z then X else (X mod two_pi)%Z in
  let '(q, R) := if (pi <=? R)%Z then (2, R - pi)%Z else (0, R)%Z in
  let '(q, R) := if (half_pi <=? R)%Z then (q + 1, R - half_pi)%Z else (q, R) in
  let swapped := (half_pi <? 2 * R)%Z in
  let U := if swapped then (half_pi - R)%Z else R in
  (q, swapped, Z.shiftr U (S - TRIG_W)).

(** The alternating series [sum -+ term * u2 / (k (k + 1)) +- ...]. *)
Fixpoint trig_series (fuel : nat) (k u2 term sum : Z) (neg : bool) : Z :=
  match fuel with
  | O => sum
  | S fuel' =>
      let term' := (Z.shiftr (term * u2) TRIG_W / (k * (k + 1)))%Z in
      if (term' =? 0)%Z then sum
      else trig_series fuel' (k + 2) u2 term'
             (if neg then sum - term' else sum + term')%Z (negb neg)
  end.

Definition sin_fx (u : Z) : Z :=
  trig_series 40 2 (Z.shiftr (u * u) TRIG_W) u u true.
Definition cos_fx (u : Z) : Z :=
  let one := Z.shiftl 1 TRIG_W in
  trig_series 40 1 (Z.shiftr (u * u) TRIG_W) one one true.

(** The cosine and the sine of the rest [t] of the quarter turn. *)
Definition trig_c (swapped : bool) (u : Z) : Z := if swapped then sin_fx u else cos_fx u.
Definition trig_s (swapped : bool) (u : Z) : Z := if swapped then cos_fx u else sin_fx u.

(** [v / 2^TRIG_W] rounded to the nearest double, ties to even, with the
    sign [neg]. *)
Definition round_fx (v : Z) (neg : bool) : float :=
  match v with
  | Zpos _ =>
      let sh := (Z.log2 v - 52)%Z in
      let q := Z.shiftr v sh in
      let q :=
        if (0 <? sh)%Z then
          let rem := (v - Z.shiftl q sh)%Z in
          let half := Z.shiftl 1 (sh - 1) in
          if ((half <? rem)%Z || ((rem =? half)%Z && Z.odd q))%bool then (q + 1)%Z else q
        else q in
      let r := Z.ldexp (float_of_Z q) (sh - TRIG_W) in
      if neg then PrimFloat.opp r else r
  | _ => if neg then (PrimFloat.opp 0)%float else 0%float
  end.

Definition float_cos (a : float) : float :=
  match Prim2SF a with
  | S754_zero _ => 1%float
  | S754_finite _ m e =>
      if PrimFloat.ltb (PrimFloat.abs a) 0x1p-27%float then 1%float
      else
        let '(q, swapped, u) := trig_reduce m e in
        if (q =? 0)%Z then round_fx (trig_c swapped u) false
        else if (q =? 1)%Z then round_fx (trig_s swapped u) true
        else if (q =? 2)%Z then round_fx (trig_c swapped u) true
        else round_fx (trig_s swapped u) false
  | S754_infinity _ | S754_nan => nan
  end.

Definition float_sin (a : float) : float :=
  match Prim2SF a with
  | S754_zero _ => a
  | S754_finite neg m e =>
      if PrimFloat.ltb (PrimFloat.abs a) 0x1p-26%float then a
      else
        let '(q, swapped, u) := trig_reduce m e in
        if (q =? 0)%Z then round_fx (trig_s swapped u) neg
        else if (q =? 1)%Z then round_fx (trig_c swapped u) neg
        else if (q =? 2)%Z then round_fx (trig_s swapped u) (negb neg)
        else round_fx (trig_c swapped u) (negb neg)
  | S754_infinity _ | S754_nan => nan
  end.

Definition Binary64 : Num.Arith := {|
  Num.num := float;
  Num.lit := fun q => PrimFloat.div (float_of_Z (Qnum q)) (float_of_Z (Zpos (Qden q)));
  Num.PI := 0x1.921fb54442d18p+1%float;
  Num.add := PrimFloat.add;
  Num.sub := PrimFloat.sub;
  Num.mul := PrimFloat.mul;
  Num.div := PrimFloat.div;
  Num.neg := PrimFloat.opp;
  Num.sqrt := PrimFloat.sqrt;
  Num.cos := float_cos;
  Num.sin := float_sin;
  Num.gt := fun a b => PrimFloat.ltb b a;
  Num.lt := fun a b => PrimFloat.ltb a b;
  Num.of_int := float_of_Z;
  Num.to_int := fun f => match float_trunc f with
                         | Some z => if in_int_range z then Some z else None
                         | None => None
                         end
|}.

(** ** [struct Vec2] *)

Module Vec2.
Section Vec2.
Context {A : Num.Arith}.
Local Open Scope num_scope.

Record t : Type := mk { x : Num.num; y : Num.num }.

(** A computation that performs divisions, with the divisors it used. *)
Definition Traced (T : Type) : Type := (T * list Num.num)%type.
Definition ret {T} (v : T) : Traced T := (v, []).
Definition bind {T U} (m : Traced T) (k : T -> Traced U) : Traced U :=
  let '(v, l) := m in let '(u, l') := k v in (u, l ++ l').
Definition traced_div (a b : Num.num) : Traced Num.num := (a / b, [b]).

Definition plus (v o : t) : t := mk (x v + x o) (y v + y o).
Definition minus (v o : t) : t := mk (x v - x o) (y v - y o).
Definition scale (v : t) (s : Num.num) : t := mk (x v * s) (y v * s).

Definition length (v : t) : Num.num := Num.sqrt (x v * x v + y v * y v).

(** [normalized], with each division recorded. *)
Definition normalized_traced (v : t) : Traced t :=
  let len := length v in
  if len >? #0 then
    bind (traced_div (x v) len) (fun x' =>
    bind (traced_div (y v) len) (fun y' =>
    ret (mk x' y')))
  else ret (mk #0 #0).

Definition normalized (v : t) : t := fst (normalized_traced v).

Definition perpendicular (v : t) : t := mk (- y v) (x v).

End Vec2.
End Vec2.

(** [TWO_PI = 2.0 * PI] *)
Definition TWO_PI {A : Num.Arith} : Num.num := (#2 * Num.PI)%num.

(** ** [struct Particle] *)

Module Particle.
Section Particle.
Context {A : Num.Arith}.
Local Open Scope num_scope.

Record t : Type := mk {
  pos : Vec2.t;
  angle : Num.num;
  radius : Num.num;
  angular_velocity : Num.num;
  brightness : Num.num
}.

(** The constructor [Particle(r, a, av, b)]; [pos] is default-constructed. *)
Definition new (r a av b : Num.num) : t := mk (Vec2.mk #0 #0) a r av b.

Definition set_angle (p : t) (a : Num.num) : t :=
  mk (pos p) a (radius p) (angular_velocity p) (brightness p).

Definition update (dt : Num.num) (p : t) : t :=
  let a := angle p + angular_velocity p * dt in
  let a := if a >? TWO_PI then a - TWO_PI else a in
  let a := if a <? #0 then a + TWO_PI else a in
  set_angle p a.

Definition get_position (p : t) (center : Vec2.t) (aspect : Num.num) : Vec2.t :=
  Vec2.mk (Vec2.x center + radius p * Num.cos (angle p) * aspect)
          (Vec2.y center + radius p * Num.sin (angle p)).

End Particle.
End Particle.

(** ** [struct Star] *)

Module Star.
Section Star.
Context {A : Num.Arith}.
Local Open Scope num_scope.

Record t : Type := mk {
  pos : Vec2.t;
  phase : Num.num;
  speed : Num.num;
  base_brightness : Num.num
}.

Definition update (dt : Num.num) (s : t) : t :=
  let ph := phase s + speed s * dt in
  let ph := if ph >? TWO_PI then ph - TWO_PI else ph in
  mk (pos s) ph (speed s) (base_brightness s).

Definition get_brightness (s : t) : Num.num :=
  base_brightness s * (#0.3 + #0.7 * (#0.5 + #0.5 * Num.sin (phase s))).

End Star.
End Star.

(** ** Loops, grids and the random source *)

(** [for (int i = lo; i < hi; ++i) body], as a state transformer. *)
Fixpoint for_loop {S : Type} (n : nat) (i : Z) (body : Z -> S -> S) (s : S) : S :=
  match n with
  | O => s
  | S n' => for_loop n' (i + 1)%Z body (body i s)
  end.

Definition for_range {S : Type} (lo hi : Z) (body : Z -> S -> S) (s : S) : S :=
  for_loop (Z.to_nat (hi - lo)) lo body s.

(** The same loop with a body that may have no defined result. *)
Fixpoint for_loop_opt {S : Type} (n : nat) (i : Z) (body : Z -> S -> option S)
    (s : S) : option S :=
  match n with
  | O => Some s
  | S n' => match body i s with
            | Some s' => for_loop_opt n' (i + 1)%Z body s'
            | None => None
            end
  end.

Definition for_range_opt {S : Type} (lo hi : Z) (body : Z -> S -> option S)
    (s : S) : option S :=
  for_loop_opt (Z.to_nat (hi - lo)) lo body s.

(** [for (const auto& a : l) body]. *)
Fixpoint for_each {S T : Type} (body : T -> S -> option S) (l : list T) (s : S)
    : option S :=
  match l with
  | [] => Some s
  | a :: l' => match body a s with
               | Some s' => for_each body l' s'
               | None => None
               end
  end.

(** [g[row][col]] and [g[row][col] = v] on a [vector] of rows.  An index
    outside the grid is undefined behaviour in C++: no result. *)
Definition grid_get {T : Type} (g : list (list T)) (row col : Z) : option T :=
  if ((0 <=? row) && (0 <=? col))%Z
  then match g !! Z.to_nat row with
       | Some r => r !! Z.to_nat col
       | None => None
       end
  else None.

Definition grid_set {T : Type} (g : list (list T)) (row col : Z) (v : T)
    : option (list (list T)) :=
  match grid_get g row col with
  | Some _ => Some (alter (fun r => <[Z.to_nat col := v]> r) (Z.to_nat row) g)
  | None => None
  end.

(** [std::clamp(v, lo, hi)] *)
Definition clamp (v lo hi : Z) : Z :=
  if (v <? lo)%Z then lo else if (hi <? v)%Z then hi else v.

Definition newline : ascii := ascii_of_nat 10.
Definition escape : ascii := ascii_of_nat 27.

(** [const string GRADIENT = " .:-=+*#%@"] *)
Definition GRADIENT : list ascii := list_ascii_of_string " .:-=+*#%@".

(** [operator<<] on an [int]: its decimal digits, with a sign when negative. *)
Definition show_int (z : Z) : string := NilZero.string_of_int (Z.to_int z).

(** The POSIX branch of [move_cursor_home]: the bytes it sends to [cout]. *)
Definition move_cursor_home : string := String escape "[H".

Section Random.
Context {A : Num.Arith}.
Local Open Scope num_scope.

(** The engine [mt19937 rng(42)] is a library object; what the program
    sees of it is the sequence of values in [0, 1) that
    [uniform_real_distribution] draws from it.  [canonical k] is the k-th
    such draw, and the state of the global [rng] is the number of draws
    made so far. *)
Variable canonical : nat -> Num.num.

Definition random_double (min_val max_val : Num.num) (rng : nat) : Num.num * nat :=
  (canonical rng * (max_val - min_val) + min_val, S rng).

End Random.

(** ** [class Galaxy] *)

Module Galaxy.
Section Galaxy.
Context {A : Num.Arith}.
Variable canonical : nat -> Num.num.
Local Open Scope num_scope.

Record t : Type := mk {
  particles_ : list Particle.t;
  stars_ : list Star.t;
  center_ : Vec2.t;
  width_ : Z;
  height_ : Z;
  time_ : Num.num;
  aspect_ratio_ : Num.num
}.

Definition emplace_particle (p : Particle.t) (g : t) : t :=
  mk (particles_ g ++ [p]) (stars_ g) (center_ g) (width_ g) (height_ g)
     (time_ g) (aspect_ratio_ g).

Definition set_particles (ps : list Particle.t) (g : t) : t :=
  mk ps (stars_ g) (center_ g) (width_ g) (height_ g) (time_ g) (aspect_ratio_ g).

Definition push_star (s : Star.t) (g : t) : t :=
  mk (particles_ g) (stars_ g ++ [s]) (center_ g) (width_ g) (height_ g)
     (time_ g) (aspect_ratio_ g).

Definition num_arms : Z := 2.
Definition particles_per_arm : Z := 150.
Definition core_particles : Z := 60.
Definition num_stars : Z := 80.

(** The member functions that build the layout act on the object and on
    the global [rng]: a state [(g, rng)]. *)
Definition init_arm_particle (arm_offset : Num.num) (i : Z) (st : t * nat) : t * nat :=
  let '(g, rng) := st in
  let t := Num.of_int i / Num.of_int particles_per_arm in
  let base_radius := #2 + t * #14 in
  let spiral_angle := arm_offset + t * #2.5 * Num.PI in
  let '(r, rng) := random_double canonical (- #1) #1 rng in
  let radius_variation := r * (#0.5 + t * #1.5) in
  let '(angle_variation, rng) := random_double canonical (- #0.2) #0.2 rng in
  let radius := base_radius + radius_variation in
  let angle := spiral_angle + angle_variation in
  let angular_velocity := #0.15 / Num.sqrt radius in
  let brightness := #0.3 + #0.7 * (#1 - t * #0.6) in
  (emplace_particle (Particle.new radius angle angular_velocity brightness) g, rng).

Definition init_spiral_arms (st : t * nat) : t * nat :=
  for_range 0 num_arms (fun arm st =>
    let arm_offset := Num.of_int arm * Num.PI in
    for_range 0 particles_per_arm (init_arm_particle arm_offset) st) st.

Definition init_core_particle (i : Z) (st : t * nat) : t * nat :=
  let '(g, rng) := st in
  let '(radius, rng) := random_double canonical #0.5 #3 rng in
  let '(angle, rng) := random_double canonical #0 TWO_PI rng in
  let angular_velocity := #0.3 / Num.sqrt (radius + #0.5) in
  let '(r, rng) := random_double canonical #0 #0.2 rng in
  let brightness := #0.8 + r in
  (emplace_particle (Particle.new radius angle angular_velocity brightness) g, rng).

Definition init_core (st : t * nat) : t * nat :=
  for_range 0 core_particles init_core_particle st.

Definition init_background_star (i : Z) (st : t * nat) : t * nat :=
  let '(g, rng) := st in
  let '(px, rng) := random_double canonical #0 (Num.of_int (width_ g)) rng in
  let '(py, rng) := random_double canonical #0 (Num.of_int (height_ g)) rng in
  let '(phase, rng) := random_double canonical #0 TWO_PI rng in
  let '(speed, rng) := random_double canonical #0.5 #2 rng in
  let '(base_brightness, rng) := random_double canonical #0.3 #1 rng in
  (push_star (Star.mk (Vec2.mk px py) phase speed base_brightness) g, rng).

Definition init_background_stars (st : t * nat) : t * nat :=
  for_range 0 num_stars init_background_star st.

(** The object as the constructor has it before the layout is built: no
    particle, no star, the centre at the middle of the grid. *)
Definition empty (w h : Z) : t :=
  mk [] [] (Vec2.mk (Num.of_int w / #2) (Num.of_int h / #2)) w h #0 #2.

(** The constructor [Galaxy(w, h)], run with the [rng] at position [rng]. *)
Definition new (w h : Z) (rng : nat) : t * nat :=
  init_background_stars (init_core (init_spiral_arms (empty w h, rng))).

Definition update (dt : Num.num) (g : t) : t :=
  mk (map (Particle.update dt) (particles_ g))
     (map (Star.update dt) (stars_ g))
     (center_ g) (width_ g) (height_ g) (time_ g + dt) (aspect_ratio_ g).

(** *** Rendering *)

Definition Screen : Type := list (list ascii).
Definition Intensity : Type := list (list Num.num).

Definition in_bounds (g : t) (px py : Z) : bool :=
  ((0 <=? px) && (px <? width_ g) && (0 <=? py) && (py <? height_ g))%Z.

Definition render_star (g : t) (s : Star.t) (screen : Screen) : option Screen :=
  sx ← Num.to_int (Vec2.x (Star.pos s));
  sy ← Num.to_int (Vec2.y (Star.pos s));
  if in_bounds g sx sy then
    let b := Star.get_brightness s in
    if b >? #0.7 then grid_set screen sy sx "*"%char
    else if b >? #0.4 then grid_set screen sy sx "+"%char
    else if b >? #0.2 then grid_set screen sy sx "."%char
    else Some screen
  else Some screen.

Definition render_stars (g : t) (screen : Screen) : option Screen :=
  for_each (render_star g) (stars_ g) screen.

Definition accumulate_particle (g : t) (p : Particle.t) (intensity : Intensity)
    : option Intensity :=
  let pos := Particle.get_position p (center_ g) (aspect_ratio_ g) in
  px ← Num.to_int (Vec2.x pos);
  py ← Num.to_int (Vec2.y pos);
  if in_bounds g px py then
    old ← grid_get intensity py px;
    grid_set intensity py px (old + Particle.brightness p)
  else Some intensity.

Definition accumulate_particles (g : t) (intensity : Intensity) : option Intensity :=
  for_each (accumulate_particle g) (particles_ g) intensity.

(** The index into [GRADIENT] chosen for an intensity above the threshold. *)
Definition gradient_index (i : Num.num) : option Z :=
  idx ← Num.to_int (i * #3);
  Some (clamp idx 0 (Z.of_nat (List.length GRADIENT) - 1)).

Definition apply_intensity_cell (intensity : Intensity) (y x : Z) (screen : Screen)
    : option Screen :=
  i ← grid_get intensity y x;
  if i >? #0.1 then
    idx ← gradient_index i;
    c ← GRADIENT !! Z.to_nat idx;
    grid_set screen y x c
  else Some screen.

Definition apply_intensity (g : t) (screen : Screen) (intensity : Intensity)
    : option Screen :=
  for_range_opt 0 (height_ g) (fun y screen =>
    for_range_opt 0 (width_ g) (fun x screen =>
      apply_intensity_cell intensity y x screen) screen) screen.

Definition render_core (g : t) (screen : Screen) : option Screen :=
  cx ← Num.to_int (Vec2.x (center_ g));
  cy ← Num.to_int (Vec2.y (center_ g));
  if ((0 <? cx) && (cx <? width_ g - 1) && (0 <=? cy) && (cy <? height_ g))%Z then
    screen ← grid_set screen cy cx "@"%char;
    screen ← grid_set screen cy (cx - 1) "("%char;
    grid_set screen cy (cx + 1) ")"%char
  else Some screen.

(** The contents of the [ostringstream buffer] that [output] builds. *)
Definition frame (screen : Screen) (real_elapsed_sec : Num.num) : option string :=
  secs ← Num.to_int real_elapsed_sec;
  let buffer :=
    fold_left (fun buffer line =>
      String.append buffer (String.append (string_of_list_ascii line)
                                          (String newline EmptyString)))
      screen EmptyString in
  Some (String.append buffer
         (String.append (String newline " Time: ")
            (String.append (show_int secs) "s"))).

(** [output]: what is appended to [cout]. *)
Definition output (screen : Screen) (real_elapsed_sec : Num.num) (cout : string)
    : option string :=
  let cout := String.append cout move_cursor_home in
  buffer ← frame screen real_elapsed_sec;
  Some (String.append cout buffer).

(** [vector<string> screen(height_, string(width_, ' '))] and the zeroed
    intensity grid.  A negative size makes the constructors throw. *)
Definition blank_screen (g : t) : option Screen :=
  if ((0 <=? width_ g) && (0 <=? height_ g))%Z
  then Some (replicate (Z.to_nat (height_ g)) (replicate (Z.to_nat (width_ g)) " "%char))
  else None.

Definition zero_intensity (g : t) : option Intensity :=
  if ((0 <=? width_ g) && (0 <=? height_ g))%Z
  then Some (replicate (Z.to_nat (height_ g)) (replicate (Z.to_nat (width_ g)) #0))
  else None.

(** The grid of glyphs that [render] hands to [output]. *)
Definition render_screen (g : t) : option Screen :=
  screen ← blank_screen g;
  intensity ← zero_intensity g;
  screen ← render_stars g screen;
  intensity ← accumulate_particles g intensity;
  screen ← apply_intensity g screen intensity;
  render_core g screen.

Definition render (g : t) (real_elapsed_sec : Num.num) (cout : string) : option string :=
  screen ← render_screen g;
  output screen real_elapsed_sec cout.

End Galaxy.
End Galaxy.

(** ** The terminal and [main] *)

(** The POSIX branch of the terminal functions: the bytes each sends to
    [cout], and the size [get_terminal_size] reports. *)
Definition hide_cursor : string := String escape "[?25l".
Definition clear_screen : string := String.append (String escape "[2J") (String escape "[H").
Definition get_terminal_size : Z * Z := (120, 40)%Z.

Section Main.
Context {A : Num.Arith}.
Variable canonical : nat -> Num.num.
Local Open Scope num_scope.

(** [constexpr double dt = 0.1] *)
Definition dt : Num.num := #0.1.

(** One turn of the loop of [main]: [render] at the clock reading, then
    [update]; the sleep leaves no trace.  The state is the galaxy and what
    has been written to [cout]. *)
Definition frame_step (real_elapsed : Num.num) (st : Galaxy.t * string)
    : option (Galaxy.t * string) :=
  cout ← Galaxy.render (fst st) real_elapsed (snd st);
  Some (Galaxy.update dt (fst st), cout).

(** [main] on a terminal of the given size, cut after as many turns of its
    endless loop as there are clock readings ([real_elapsed] of each
    turn); the result is what [cout] has received.  The engine is freshly
    seeded: no draw has been made. *)
Definition main_on (size : Z * Z) (clock : list Num.num) : option string :=
  let cout := String.append hide_cursor clear_screen in
  let '(term_width, term_height) := size in
  let width := Z.min term_width 120 in
  let height := Z.min (term_height - 3) 35 in
  let galaxy := fst (Galaxy.new canonical width height 0) in
  snd <$> for_each frame_step clock (galaxy, cout).

Definition main (clock : list Num.num) : option string :=
  main_on get_terminal_size clock.

End Main.

(** Sample data in binary64 for evaluating the code: a stream of draws and
    the galaxy the constructor builds from it on the POSIX terminal. *)
Definition demo_stream (k : nat) : float :=
  PrimFloat.div (float_of_Z ((Z.of_nat k * 37) mod 100)) (float_of_Z 100).

Definition demo_galaxy : @Galaxy.t Binary64 :=
  fst (Galaxy.new (A:=Binary64) demo_stream 120 35 0).

(** * Properties *)

(** ** Loops *)

Section Loops.
Context {S : Type}.

Lemma for_loop_app (a b : nat) (i : Z) (body : Z -> S -> S) (s : S) :
  for_loop (a + b) i body s = for_loop b (i + Z.of_nat a) body (for_loop a i body s).
Proof.
  revert i s. induction a as [|a IH]; intros i s; simpl.
  - f_equal. lia.
  - rewrite IH. f_equal. lia.
Qed.

(** An invariant indexed by the loop counter carries over a loop. *)
Lemma for_loop_inv (Inv : Z -> S -> Prop) (n : nat) (i : Z) (body : Z -> S -> S) (s : S) :
  Inv i s ->
  (forall j s', (i <= j < i + Z.of_nat n)%Z -> Inv j s' -> Inv (j + 1)%Z (body j s')) ->
  Inv (i + Z.of_nat n)%Z (for_loop n i body s).
Proof.
  revert i s. induction n as [|n IH]; intros i s H0 Hstep; simpl.
  - replace (i + Z.of_nat 0)%Z with i by lia. exact H0.
  - replace (i + Z.of_nat (Datatypes.S n))%Z with ((i + 1) + Z.of_nat n)%Z by lia.
    apply IH.
    + apply Hstep; [lia | exact H0].
    + intros j s' Hj. apply Hstep. lia.
Qed.

Lemma for_loop_opt_inv (Inv : Z -> S -> Prop) (n : nat) (i : Z)
    (body : Z -> S -> option S) (s : S) :
  Inv i s ->
  (forall j s', (i <= j < i + Z.of_nat n)%Z -> Inv j s' ->
     exists s'', body j s' = Some s'' /\ Inv (j + 1)%Z s'') ->
  exists s', for_loop_opt n i body s = Some s' /\ Inv (i + Z.of_nat n)%Z s'.
Proof.
  revert i s. induction n as [|n IH]; intros i s H0 Hstep; simpl.
  - exists s. split; [reflexivity|]. replace (i + Z.of_nat 0)%Z with i by lia. exact H0.
  - destruct (Hstep i s) as (s1 & Hb & H1); [lia | exact H0 |].
    rewrite Hb.
    replace (i + Z.of_nat (Datatypes.S n))%Z with ((i + 1) + Z.of_nat n)%Z by lia.
    apply IH; [exact H1|].
    intros j s' Hj. apply Hstep. lia.
Qed.

Lemma for_each_inv {T : Type} (Inv : S -> Prop) (body : T -> S -> option S)
    (l : list T) (s : S) :
  Inv s ->
  (forall a s', a ∈ l -> Inv s' -> exists s'', body a s' = Some s'' /\ Inv s'') ->
  exists s', for_each body l s = Some s' /\ Inv s'.
Proof.
  revert s. induction l as [|a l IH]; intros s H0 Hstep; simpl.
  - eauto.
  - destruct (Hstep a s) as (s1 & Hb & H1); [left | exact H0 |].
    rewrite Hb. apply IH; [exact H1|].
    intros b s' Hin. apply Hstep. by right.
Qed.

Lemma for_each_cons2 {T : Type} (body : T -> S -> option S) (a b : T)
    (l : list T) (s : S) :
  for_each body (a :: b :: l) s = (body a s ≫= body b) ≫= for_each body l.
Proof. simpl. destruct (body a s) as [s1|]; [|done]. simpl. by destruct (body b s1). Qed.

(** A loop whose steps commute does not depend on the order of the
    collection. *)
Lemma for_each_perm {T : Type} (Inv : S -> Prop) (body : T -> S -> option S)
    (l l' : list T) :
  Permutation l l' ->
  (forall a s s', Inv s -> body a s = Some s' -> Inv s') ->
  (forall a b s, Inv s -> body a s ≫= body b = body b s ≫= body a) ->
  forall s, Inv s -> for_each body l s = for_each body l' s.
Proof.
  intros Hperm Hpres Hcomm.
  induction Hperm as [|x l l' _ IH|x y l|l l' l'' _ IH1 _ IH2]; intros s Hs.
  - reflexivity.
  - simpl. destruct (body x s) as [s1|] eqn:Hx; [|done]. apply IH. eauto.
  - rewrite !for_each_cons2. by rewrite Hcomm.
  - etrans; [by apply IH1 | by apply IH2].
Qed.

End Loops.

(** ** [map] and lookup *)

Lemma lookup_map {T U : Type} (f : T -> U) (l : list T) (i : nat) :
  map f l !! i = f <$> l !! i.
Proof.
  revert i. induction l as [|a l IH]; intros [|i]; simpl; auto.
Qed.

(** ** Grids *)

Section Grids.
Context {T : Type}.
Implicit Types g : list (list T).

(** A grid of [h] rows of [w] cells each. *)
Definition grid_shape (h w : nat) g : Prop :=
  List.length g = h /\ Forall (fun r => List.length r = w) g.

Lemma grid_get_Some g row col v :
  grid_get g row col = Some v <->
  (0 <= row)%Z /\ (0 <= col)%Z /\
  exists r, g !! Z.to_nat row = Some r /\ r !! Z.to_nat col = Some v.
Proof.
  unfold grid_get. split.
  - destruct (0 <=? row)%Z eqn:Hr; [|discriminate].
    destruct (0 <=? col)%Z eqn:Hc; [|discriminate]. simpl.
    destruct (g !! Z.to_nat row) as [r|] eqn:Hg; [|discriminate].
    intros Hv. repeat split; [lia | lia | eauto].
  - intros (Hr & Hc & r & Hg & Hv).
    apply Z.leb_le in Hr, Hc. rewrite Hr, Hc, Hg. exact Hv.
Qed.

Lemma grid_shape_get (h w : nat) g row col :
  grid_shape h w g -> (0 <= row < Z.of_nat h)%Z -> (0 <= col < Z.of_nat w)%Z ->
  is_Some (grid_get g row col).
Proof.
  intros [Hlen Hrows] Hr Hc.
  destruct (lookup_lt_is_Some_2 g (Z.to_nat row)) as [r Hg]; [lia|].
  assert (List.length r = w) as Hw.
  { eapply (proj1 (Forall_lookup _ _) Hrows); eauto. }
  destruct (lookup_lt_is_Some_2 r (Z.to_nat col)) as [v Hv]; [lia|].
  exists v. apply grid_get_Some. eauto 6 with lia.
Qed.

Lemma grid_get_shape (h w : nat) g row col v :
  grid_shape h w g -> grid_get g row col = Some v ->
  (0 <= row < Z.of_nat h)%Z /\ (0 <= col < Z.of_nat w)%Z.
Proof.
  intros [Hlen Hrows] (Hr & Hc & r & Hg & Hv)%grid_get_Some.
  assert (List.length r = w) as Hw.
  { eapply (proj1 (Forall_lookup _ _) Hrows); eauto. }
  apply lookup_lt_Some in Hg, Hv. lia.
Qed.

Lemma grid_set_is_Some g row col v :
  is_Some (grid_get g row col) -> is_Some (grid_set g row col v).
Proof. intros [old Hold]. unfold grid_set. rewrite Hold. eauto. Qed.

Lemma grid_set_Some g row col v g' :
  grid_set g row col v = Some g' ->
  is_Some (grid_get g row col) /\
  g' = alter (fun r => <[Z.to_nat col := v]> r) (Z.to_nat row) g.
Proof.
  unfold grid_set. destruct (grid_get g row col); [|discriminate].
  intros [= <-]. eauto.
Qed.

Lemma grid_set_shape (h w : nat) g row col v g' :
  grid_set g row col v = Some g' -> grid_shape h w g -> grid_shape h w g'.
Proof.
  intros [_ ->]%grid_set_Some [Hlen Hrows]. split.
  - by rewrite length_alter.
  - apply Forall_lookup. intros i r Hi.
    destruct (decide (i = Z.to_nat row)) as [->|Hne].
    + rewrite list_lookup_alter_eq in Hi.
      destruct (g !! Z.to_nat row) as [r0|] eqn:Hg; [|discriminate].
      injection Hi as <-. rewrite length_insert.
      eapply (proj1 (Forall_lookup _ _) Hrows); eauto.
    + rewrite list_lookup_alter_ne in Hi by done.
      eapply (proj1 (Forall_lookup _ _) Hrows); eauto.
Qed.

(** Reading a grid after one write. *)
Lemma grid_get_set g row col v g' row' col' :
  grid_set g row col v = Some g' ->
  grid_get g' row' col' =
    if decide (row' = row /\ col' = col) then Some v else grid_get g row' col'.
Proof.
  intros [[old Hold] ->]%grid_set_Some.
  apply grid_get_Some in Hold as (Hr & Hc & r & Hg & Hv).
  unfold grid_get.
  destruct (0 <=? row')%Z eqn:Hr'; simpl;
    [|case_decide as Hd; [destruct Hd as [-> _]; apply Z.leb_gt in Hr'; lia | done]].
  destruct (0 <=? col')%Z eqn:Hc';
    [|case_decide as Hd; [destruct Hd as [_ ->]; apply Z.leb_gt in Hc'; lia | done]].
  apply Z.leb_le in Hr', Hc'.
  destruct (decide (row' = row)) as [->|Hne].
  - rewrite list_lookup_alter_eq, Hg. simpl.
    destruct (decide (col' = col)) as [->|Hnc].
    + rewrite decide_True by done. apply list_lookup_insert_eq.
      by eapply lookup_lt_Some.
    + rewrite decide_False by tauto. apply list_lookup_insert_ne. lia.
  - rewrite decide_False by tauto. rewrite list_lookup_alter_ne by lia. done.
Qed.

Lemma grid_get_set_eq g row col v g' :
  grid_set g row col v = Some g' -> grid_get g' row col = Some v.
Proof. intros H. rewrite (grid_get_set _ _ _ _ _ _ _ H). by rewrite decide_True. Qed.

Lemma grid_get_set_ne g row col v g' row' col' :
  grid_set g row col v = Some g' -> (row', col') <> (row, col) ->
  grid_get g' row' col' = grid_get g row' col'.
Proof.
  intros H Hne. rewrite (grid_get_set _ _ _ _ _ _ _ H).
  rewrite decide_False; [done|]. intros [-> ->]. by apply Hne.
Qed.

Lemma grid_shape_replicate (h w : nat) (v : T) :
  grid_shape h w (replicate h (replicate w v)).
Proof.
  split; [apply length_replicate|].
  apply Forall_forall. intros r ->%elem_of_replicate_inv. apply length_replicate.
Qed.

Lemma grid_get_replicate (h w : nat) (v : T) row col :
  (0 <= row < Z.of_nat h)%Z -> (0 <= col < Z.of_nat w)%Z ->
  grid_get (replicate h (replicate w v)) row col = Some v.
Proof.
  intros Hr Hc. apply grid_get_Some. repeat split; [lia | lia |].
  exists (replicate w v). split; apply lookup_replicate_2; lia.
Qed.

(** Two grids of one shape with the same cells are the same grid. *)
Lemma grid_ext (h w : nat) g1 g2 :
  grid_shape h w g1 -> grid_shape h w g2 ->
  (forall row col, grid_get g1 row col = grid_get g2 row col) -> g1 = g2.
Proof.
  intros [Hl1 Hr1] [Hl2 Hr2] Hget. apply list_eq. intros i.
  destruct (g1 !! i) as [r1|] eqn:H1.
  - destruct (lookup_lt_is_Some_2 g2 i) as [r2 H2].
    { apply lookup_lt_Some in H1. lia. }
    rewrite H2. f_equal. apply list_eq. intros j.
    specialize (Hget (Z.of_nat i) (Z.of_nat j)). unfold grid_get in Hget.
    rewrite !(proj2 (Z.leb_le _ _)) in Hget by lia. simpl in Hget.
    by rewrite !Nat2Z.id, H1, H2 in Hget.
  - symmetry. apply lookup_ge_None. apply lookup_ge_None in H1. lia.
Qed.

End Grids.

(** ** The model over the real numbers *)

Section RealModel.
#[local] Existing Instance Real.
Local Open Scope R_scope.

Ltac real :=
  cbn [Num.num Num.lit Num.PI Num.add Num.sub Num.mul Num.div Num.neg
       Num.sqrt Num.cos Num.sin Num.gt Num.lt Num.of_int Num.to_int Real] in *;
  change (@Num.num Real) with R in *.
Ltac lits := unfold TWO_PI in *; real; unfold Q2R in *; cbn [Qnum Qden] in *.

(** An integer literal of the source, read as a real number. *)
Lemma lit_int (n : Z) : Q2R (Qmake n 1) = IZR n.
Proof. unfold Q2R. cbn [Qnum Qden]. lra. Qed.

Lemma lit_int' (n : Z) : IZR n * / 1 = IZR n.
Proof. lra. Qed.

(** *** Truncation toward zero *)

Lemma Rtrunc_nonneg (r : R) : 0 <= r -> Rtrunc r = Zfloor r.
Proof. intros H. unfold Rtrunc. by rewrite decide_True. Qed.

Lemma Rtrunc_neg (r : R) : r < 0 -> Rtrunc r = Zceil r.
Proof. intros H. unfold Rtrunc. rewrite decide_False; [done | lra]. Qed.

Lemma Rtrunc_eq_nonneg (z : Z) (r : R) :
  (0 <= z)%Z -> IZR z <= r < IZR z + 1 -> Rtrunc r = z.
Proof.
  intros Hz Hr. rewrite Rtrunc_nonneg.
  - by apply Zfloor_eq.
  - apply IZR_le in Hz. lra.
Qed.

Lemma Rtrunc_eq_nonpos (z : Z) (r : R) :
  (z <= 0)%Z -> IZR z - 1 < r <= IZR z -> Rtrunc r = z.
Proof.
  intros Hz Hr. unfold Rtrunc. case_decide as H0.
  - apply IZR_le in Hz. assert (r = 0) as -> by lra.
    assert (IZR z = 0) as Hz0 by lra. apply eq_IZR in Hz0. subst z.
    apply (ZfloorZ 0).
  - by apply Zceil_eq.
Qed.

Lemma Rtrunc_IZR (z : Z) : Rtrunc (IZR z) = z.
Proof.
  destruct (Z_le_gt_dec 0 z).
  - apply Rtrunc_eq_nonneg; [done | lra].
  - apply Rtrunc_eq_nonpos; [lia | lra].
Qed.

(** Truncation toward zero is monotone. *)
Lemma Rtrunc_le (r1 r2 : R) : r1 <= r2 -> (Rtrunc r1 <= Rtrunc r2)%Z.
Proof.
  intros H. unfold Rtrunc. repeat case_decide.
  - by apply Zfloor_le.
  - lra.
  - etrans; [apply (Zceil_le r1 0); lra|].
    replace (Zceil 0) with 0%Z by (symmetry; apply (Zceil_eq 0); lra).
    apply (Zfloor_lub 0). lra.
  - by apply Zceil_le.
Qed.

(** An [int] halved in [double] and cast back is the C++ quotient. *)
Lemma Rtrunc_half (w : Z) : Rtrunc (IZR w / 2) = (w ÷ 2)%Z.
Proof.
  pose proof (Z.quot_rem' w 2) as Hqr.
  assert (IZR w = 2 * IZR (w ÷ 2) + IZR (Z.rem w 2)) as HR.
  { rewrite Hqr at 1. by rewrite plus_IZR, mult_IZR. }
  destruct (Z_le_gt_dec 0 w) as [Hw|Hw].
  - pose proof (Z.rem_bound_pos w 2 Hw ltac:(lia)) as Hb.
    assert (0 <= w ÷ 2)%Z by (apply Z.quot_pos; lia).
    assert (0 <= IZR (Z.rem w 2) <= 1) as Hrem.
    { split; apply IZR_le; lia. }
    apply Rtrunc_eq_nonneg; [done | lra].
  - pose proof (Z.rem_bound_pos (- w) 2 ltac:(lia) ltac:(lia)) as Hb.
    rewrite Z.rem_opp_l in Hb by lia.
    assert (w ÷ 2 <= 0)%Z by (apply Z.quot_le_upper_bound; lia).
    assert (-1 <= IZR (Z.rem w 2) <= 0) as Hrem.
    { split; apply IZR_le; lia. }
    apply Rtrunc_eq_nonpos; [done | lra].
Qed.

Lemma to_int_Some (r : R) (z : Z) :
  Num.to_int r = Some z <-> Rtrunc r = z /\ in_int_range z = true.
Proof.
  real. split.
  - destruct (in_int_range (Rtrunc r)) eqn:H; [|discriminate]. by intros [= <-].
  - intros [<- ->]. done.
Qed.

Lemma in_int_range_spec (z : Z) :
  in_int_range z = true <-> (- 2 ^ 31 <= z <= 2 ^ 31 - 1)%Z.
Proof. unfold in_int_range, INT_MIN, INT_MAX. lia. Qed.

Lemma to_int_half (w : Z) :
  in_int_range w = true -> Num.to_int (Num.of_int w / Num.lit 2)%num = Some (w ÷ 2)%Z.
Proof.
  intros Hw. apply to_int_Some. lits.
  replace (IZR w / (2 * / 1)) with (IZR w / 2) by (field; lra).
  split; [apply Rtrunc_half|].
  apply in_int_range_spec in Hw. apply in_int_range_spec.
  assert (- 2 ^ 31 <= w ÷ 2)%Z by (apply Z.quot_le_lower_bound; lia).
  assert (w ÷ 2 <= 2 ^ 31 - 1)%Z by (apply Z.quot_le_upper_bound; lia).
  lia.
Qed.

(** *** [Vec2] *)

Lemma length_nonneg (v : Vec2.t) : 0 <= Vec2.length v.
Proof. unfold Vec2.length. real. apply sqrt_pos. Qed.

(** C6.  [normalized] has a result for every vector, and it has one of two
    forms: the zero vector with no division performed, or the quotient of
    the components by the length with the length strictly positive at both
    divisions.  So every divisor is strictly positive, and a vector of
    length zero (the zero vector in particular) gives the zero vector. *)
Theorem normalized_total_and_guarded :
  (forall v : Vec2.t,
     (~ 0 < Vec2.length v /\
      Vec2.normalized_traced v = (Vec2.mk 0 0, [])) \/
     (0 < Vec2.length v /\
      Vec2.normalized_traced v =
        (Vec2.mk (Vec2.x v / Vec2.length v) (Vec2.y v / Vec2.length v),
         [Vec2.length v; Vec2.length v]))) /\
  (forall v : Vec2.t, Forall (fun d => 0 < d) (snd (Vec2.normalized_traced v))) /\
  (forall v : Vec2.t, Vec2.length v = 0 <-> Vec2.normalized_traced v = (Vec2.mk 0 0, [])) /\
  Vec2.normalized (Vec2.mk (A:=Real) 0 0) = Vec2.mk 0 0.
Proof.
  assert (forall v : Vec2.t,
     (~ 0 < Vec2.length v /\
      Vec2.normalized_traced v = (Vec2.mk 0 0, [])) \/
     (0 < Vec2.length v /\
      Vec2.normalized_traced v =
        (Vec2.mk (Vec2.x v / Vec2.length v) (Vec2.y v / Vec2.length v),
         [Vec2.length v; Vec2.length v]))) as Hform.
  { intros v. unfold Vec2.normalized_traced.
    assert (Num.lit 0 = 0) as H0 by (lits; lra).
    destruct (decide (0 < Vec2.length v)) as [Hpos|Hnpos].
    - right. split; [done|]. real. rewrite H0, bool_decide_eq_true_2 by done.
      reflexivity.
    - left. split; [done|]. real. rewrite H0, bool_decide_eq_false_2 by done.
      reflexivity. }
  split; [exact Hform|]. split; [|split].
  - intros v. destruct (Hform v) as [[_ ->]|[Hpos ->]]; simpl; auto.
  - intros v. pose proof (length_nonneg v) as Hge.
    destruct (Hform v) as [[Hn ->]|[Hpos ->]].
    + split; [done | intros _; lra].
    + split; [lra | discriminate].
  - unfold Vec2.normalized. destruct (Hform (Vec2.mk (A:=Real) 0 0)) as [[_ ->]|[Hpos _]]; [done|].
    exfalso. revert Hpos. unfold Vec2.length. real. simpl.
    replace (0 * 0 + 0 * 0) with 0 by ring. rewrite sqrt_0. lra.
Qed.

(** *** [Particle::get_position] *)

(** C7, as the code has it.  The projected position is the centre plus
    [(radius * cos angle * aspect, radius * sin angle)].  In exact
    arithmetic that is the centre plus [(radius * aspect, 0)] at angle 0
    and the centre plus [(0, radius)] at angle pi/2.  In binary64 the
    three products and two sums are rounded; at angle 0 the cosine is 1 and
    the sine 0, but the double [PI / 2] lies below pi/2: its sine is 1 and
    its cosine is [0x1.1a62633145c07p-54], about 6.1e-17, so the first
    coordinate is the centre's plus [radius * 6.1e-17 * aspect], not the
    centre's. *)
Theorem get_position_formula (p : Particle.t) (center : Vec2.t) (aspect : R) :
  Particle.get_position p center aspect =
    Vec2.plus center
      (Vec2.mk (Particle.radius p * cos (Particle.angle p) * aspect)
               (Particle.radius p * sin (Particle.angle p))) /\
  Particle.get_position (Particle.set_angle p 0) center aspect =
    Vec2.plus center (Vec2.mk (Particle.radius p * aspect) 0) /\
  Particle.get_position (Particle.set_angle p (PI / 2)) center aspect =
    Vec2.plus center (Vec2.mk 0 (Particle.radius p)) /\
  (forall (q : @Particle.t Binary64) (c : @Vec2.t Binary64) (a : float),
     Particle.get_position (A:=Binary64) (Particle.set_angle q (Num.lit 0)) c a =
       Vec2.mk (A:=Binary64)
         (PrimFloat.add (Vec2.x c) (PrimFloat.mul (PrimFloat.mul (Particle.radius q) 1) a))
         (PrimFloat.add (Vec2.y c) (PrimFloat.mul (Particle.radius q) 0)) /\
     Particle.get_position (A:=Binary64)
         (Particle.set_angle q (Num.div Num.PI (Num.lit 2))) c a =
       Vec2.mk (A:=Binary64)
         (PrimFloat.add (Vec2.x c)
            (PrimFloat.mul (PrimFloat.mul (Particle.radius q) 0x1.1a62633145c07p-54) a))
         (PrimFloat.add (Vec2.y c) (PrimFloat.mul (Particle.radius q) 1))).
Proof.
  split; [|split; [|split]].
  - unfold Particle.get_position, Vec2.plus. real. reflexivity.
  - unfold Particle.get_position, Vec2.plus. real. simpl.
    rewrite cos_0, sin_0. f_equal; real; ring.
  - unfold Particle.get_position, Vec2.plus. real. simpl.
    rewrite cos_PI2, sin_PI2. f_equal; real; ring.
  - intros q c a.
    assert (float_cos (Num.lit (Arith:=Binary64) 0) = 1%float) as Hc0
      by (vm_compute; reflexivity).
    assert (float_sin (Num.lit (Arith:=Binary64) 0) = 0%float) as Hs0
      by (vm_compute; reflexivity).
    assert (float_cos (Num.div (Arith:=Binary64) Num.PI (Num.lit 2))
            = 0x1.1a62633145c07p-54%float) as Hc by (vm_compute; reflexivity).
    assert (float_sin (Num.div (Arith:=Binary64) Num.PI (Num.lit 2)) = 1%float) as Hs
      by (vm_compute; reflexivity).
    unfold Particle.get_position, Particle.set_angle.
    cbn [Particle.angle Particle.radius Num.cos Num.sin Num.add Num.mul Num.num Binary64].
    rewrite Hc0, Hs0, Hc, Hs. split; reflexivity.
Qed.

(** C7 as stated fails in the arithmetic the program runs.  A particle of
    radius 1 at the double [PI / 2], projected about the centre (0, 0)
    with aspect ratio 2, has the first coordinate
    [0x1.1a62633145c07p-53], about 1.2e-16, where the claim has 0; the
    second is 1 as claimed. *)
Lemma quarter_turn_is_off_axis_in_binary64 :
  let p := Particle.new (A:=Binary64) (Num.lit 1) (Num.div Num.PI (Num.lit 2))
             (Num.lit 0.1) (Num.lit 1) in
  let center := Vec2.mk (A:=Binary64) (Num.lit 0) (Num.lit 0) in
  let pos := Particle.get_position p center (Num.lit 2) in
  let claimed := Vec2.plus center (Vec2.mk (Num.lit 0) (Particle.radius p)) in
  Num.cos (Arith:=Binary64) (Num.div Num.PI (Num.lit 2)) = 0x1.1a62633145c07p-54%float /\
  Vec2.x pos = 0x1.1a62633145c07p-53%float /\
  Vec2.y pos = 1%float /\
  Vec2.x claimed = 0%float /\ Vec2.y claimed = 1%float /\
  PrimFloat.eqb (Vec2.x pos) (Vec2.x claimed) = false /\
  pos <> claimed.
Proof.
  intros p center pos claimed.
  split; [vm_compute; reflexivity|]. split; [vm_compute; reflexivity|].
  split; [vm_compute; reflexivity|]. split; [vm_compute; reflexivity|].
  split; [vm_compute; reflexivity|]. split; [vm_compute; reflexivity|].
  intros H. apply (f_equal (fun v : @Vec2.t Binary64 => Prim2SF (Vec2.x v))) in H.
  vm_compute in H. discriminate H.
Qed.

(** *** The intensity-to-glyph pass *)

Lemma gradient_last : (Z.of_nat (List.length GRADIENT) - 1)%Z = 9%Z.
Proof. reflexivity. Qed.

Lemma GRADIENT_lookup (k : Z) :
  (0 <= k <= 9)%Z -> is_Some (GRADIENT !! Z.to_nat k).
Proof. intros H. apply lookup_lt_is_Some_2. simpl. lia. Qed.

Lemma clamp_range (v lo hi : Z) : (lo <= hi)%Z -> (lo <= clamp v lo hi <= hi)%Z.
Proof. intros H. unfold clamp. repeat case_match; lia. Qed.

Lemma clamp_mono (v1 v2 lo hi : Z) :
  (lo <= hi)%Z -> (v1 <= v2)%Z -> (clamp v1 lo hi <= clamp v2 lo hi)%Z.
Proof. intros H H12. unfold clamp. repeat case_match; lia. Qed.

Lemma Rtrunc_int_range (r : R) :
  0 <= r < 2147483648 -> in_int_range (Rtrunc r) = true.
Proof.
  intros [H0 H1]. rewrite Rtrunc_nonneg by done. apply in_int_range_spec.
  pose proof (Zfloor_bound r) as [Hlo Hhi].
  assert (0 <= Zfloor r)%Z by (apply (Zfloor_lub 0); lra).
  assert (Zfloor r < 2147483648)%Z by (apply lt_IZR; lra).
  lia.
Qed.

(** The index computed by the code: the product truncated, then clamped. *)
Lemma gradient_index_Some (i : R) :
  0 <= i * 3 < 2147483648 ->
  Galaxy.gradient_index i = Some (clamp (Rtrunc (i * 3)) 0 9).
Proof.
  intros Hi. unfold Galaxy.gradient_index. rewrite gradient_last. lits.
  replace (i * (3 * / 1)) with (i * 3) by lra.
  by rewrite Rtrunc_int_range.
Qed.

(** The glyph a cell holds after the pass, from the intensity accumulated
    there and the glyph it held before. *)
Definition glyph_after (i : R) (old : ascii) : ascii :=
  if decide (0.1 < i)
  then default " "%char (GRADIENT !! Z.to_nat (clamp (Rtrunc (i * 3)) 0 9))
  else old.

Lemma apply_intensity_cell_spec (h w : nat) (intensity : Galaxy.Intensity)
    (s : Galaxy.Screen) (y x : Z) :
  grid_shape h w intensity -> grid_shape h w s ->
  (0 <= y < Z.of_nat h)%Z -> (0 <= x < Z.of_nat w)%Z ->
  (forall r c i, grid_get intensity r c = Some i -> 0.1 < i -> i * 3 < 2147483648) ->
  exists i old s',
    grid_get intensity y x = Some i /\ grid_get s y x = Some old /\
    Galaxy.apply_intensity_cell intensity y x s = Some s' /\
    grid_shape h w s' /\
    forall r c, grid_get s' r c =
      if decide (r = y /\ c = x) then Some (glyph_after i old) else grid_get s r c.
Proof.
  intros Hi Hs Hy Hx Hsmall.
  destruct (grid_shape_get h w intensity y x Hi Hy Hx) as [i Hgi].
  destruct (grid_shape_get h w s y x Hs Hy Hx) as [old Hgo].
  exists i, old. unfold Galaxy.apply_intensity_cell. rewrite Hgi. simpl.
  unfold glyph_after. real.
  destruct (decide (0.1 < i)) as [Hgt|Hle].
  - rewrite bool_decide_eq_true_2 by done.
    rewrite gradient_index_Some by (split; [lra | eauto]). simpl.
    destruct (GRADIENT_lookup (clamp (Rtrunc (i * 3)) 0 9)) as [c Hc].
    { apply clamp_range. lia. }
    rewrite Hc. simpl.
    destruct (grid_set_is_Some s y x c) as [s' Hset]; [eauto|].
    exists s'. split; [done|]. split; [done|]. split; [done|].
    split; [by eapply grid_set_shape|].
    intros r c'. apply grid_get_set. exact Hset.
  - rewrite bool_decide_eq_false_2 by done.
    exists s. split; [done|]. split; [done|]. split; [done|]. split; [done|].
    intros r c. case_decide as Hd; [|done]. destruct Hd as [-> ->]. done.
Qed.

(** The whole pass: it has a result, the grid keeps its shape, and every
    cell holds [glyph_after] of its intensity and its former glyph. *)
Lemma apply_intensity_spec (g : Galaxy.t) (h w : nat)
    (screen : Galaxy.Screen) (intensity : Galaxy.Intensity) :
  Galaxy.height_ g = Z.of_nat h -> Galaxy.width_ g = Z.of_nat w ->
  grid_shape h w screen -> grid_shape h w intensity ->
  (forall r c i, grid_get intensity r c = Some i -> 0.1 < i -> i * 3 < 2147483648) ->
  exists screen',
    Galaxy.apply_intensity g screen intensity = Some screen' /\
    grid_shape h w screen' /\
    forall r c i old,
      grid_get intensity r c = Some i -> grid_get screen r c = Some old ->
      grid_get screen' r c = Some (glyph_after i old).
Proof.
  intros Hh Hw Hs Hi Hsmall. unfold Galaxy.apply_intensity, for_range_opt.
  rewrite Hh, Hw, !Z.sub_0_r, !Nat2Z.id.
  pose (Inv := fun (y x : Z) (s : Galaxy.Screen) =>
    grid_shape h w s /\
    forall r c i old,
      grid_get intensity r c = Some i -> grid_get screen r c = Some old ->
      grid_get s r c =
        Some (if decide (r < y \/ (r = y /\ c < x))%Z then glyph_after i old else old)).
  destruct (for_loop_opt_inv (fun y s => Inv y 0%Z s) h 0%Z
    (fun y s => for_loop_opt w 0%Z
       (fun x s => Galaxy.apply_intensity_cell intensity y x s) s) screen)
    as (screen' & Hrun & Hshape & Hcells).
  - split; [done|]. intros r c i old Hgi Hgo. rewrite decide_False; [done|].
    destruct (grid_get_shape _ _ _ _ _ _ Hs Hgo). lia.
  - intros y s Hy HI.
    destruct (for_loop_opt_inv (Inv y) w 0%Z
      (fun x s => Galaxy.apply_intensity_cell intensity y x s) s)
      as (s' & Hrun' & Hshape' & Hcells'); [exact HI | |].
    + intros x s1 Hx [Hs1 Hc1].
      destruct (apply_intensity_cell_spec h w intensity s1 y x Hi Hs1
                  ltac:(lia) ltac:(lia) Hsmall)
        as (i & old1 & s2 & Hgi & Hgo1 & Hcell & Hs2 & Hget).
      exists s2. split; [exact Hcell|]. split; [exact Hs2|].
      intros r c i' old Hgi' Hgo. rewrite Hget.
      specialize (Hc1 r c i' old Hgi' Hgo).
      destruct (decide (r = y /\ c = x)) as [[-> ->]|Hne].
      * rewrite Hgi in Hgi'. injection Hgi' as <-.
        rewrite Hgo1 in Hc1. injection Hc1 as Hold.
        rewrite decide_False in Hold by lia. subst old1.
        rewrite decide_True by lia. done.
      * rewrite Hc1. f_equal. repeat case_decide; try done; lia.
    + exists s'. split; [exact Hrun'|]. split; [exact Hshape'|].
      intros r c i old Hgi Hgo. rewrite (Hcells' r c i old Hgi Hgo). f_equal.
      destruct (grid_get_shape _ _ _ _ _ _ Hs Hgo).
      repeat case_decide; try done; lia.
  - exists screen'. split; [exact Hrun|]. split; [exact Hshape|].
    intros r c i old Hgi Hgo. rewrite (Hcells r c i old Hgi Hgo). f_equal.
    destruct (grid_get_shape _ _ _ _ _ _ Hs Hgo).
    rewrite decide_True; [done | lia].
Qed.

(** Follows the spec's words: "glyph index = clamp(round(intensity * 3), 0,
    len(ramp)-1)", with [round] to the nearest integer. *)
Definition spec_round (r : R) : Z := Zfloor (r + 1 / 2).
Definition spec_gradient_index (i : R) : Z := clamp (spec_round (i * 3)) 0 9.

Lemma grid_get_singleton {T : Type} (v i : T) (r c : Z) :
  grid_get [[v]] r c = Some i -> i = v.
Proof.
  intros (_ & _ & row & Hrow & Hi)%grid_get_Some.
  destruct (Z.to_nat r) as [|n]; [|destruct n; discriminate].
  injection Hrow as <-.
  destruct (Z.to_nat c) as [|n]; [|destruct n; discriminate].
  by injection Hi as <-.
Qed.

Lemma grid_shape_singleton {T : Type} (v : T) : grid_shape 1 1 [[v]].
Proof. split; [reflexivity|]. by repeat constructor. Qed.

(** C1, as the code has it.  The pass has a result on grids of the
    galaxy's size; every cell whose intensity [i] exceeds 0.1 then holds the
    glyph of [GRADIENT] at index [clamp (trunc (i * 3)) 0 9], the product
    truncated toward zero, not rounded, and every other cell keeps its
    glyph.  Intensity 1.0 gives index 3, the glyph '-'. *)
Theorem apply_intensity_truncates (g : Galaxy.t) (h w : nat)
    (screen : Galaxy.Screen) (intensity : Galaxy.Intensity) :
  Galaxy.height_ g = Z.of_nat h -> Galaxy.width_ g = Z.of_nat w ->
  grid_shape h w screen -> grid_shape h w intensity ->
  (forall r c i, grid_get intensity r c = Some i -> 0.1 < i -> i * 3 < 2147483648) ->
  (exists screen',
     Galaxy.apply_intensity g screen intensity = Some screen' /\
     forall r c i old,
       grid_get intensity r c = Some i -> grid_get screen r c = Some old ->
       (0.1 < i ->
        Galaxy.gradient_index i = Some (clamp (Rtrunc (i * 3)) 0 9) /\
        grid_get screen' r c = GRADIENT !! Z.to_nat (clamp (Rtrunc (i * 3)) 0 9)) /\
       (~ 0.1 < i -> grid_get screen' r c = Some old)) /\
  Galaxy.gradient_index 1 = Some 3%Z /\ GRADIENT !! 3%nat = Some "-"%char.
Proof.
  intros Hh Hw Hs Hi Hsmall. split.
  - destruct (apply_intensity_spec g h w screen intensity Hh Hw Hs Hi Hsmall)
      as (screen' & Hrun & _ & Hcells).
    exists screen'. split; [exact Hrun|].
    intros r c i old Hgi Hgo. rewrite (Hcells r c i old Hgi Hgo).
    unfold glyph_after. split.
    + intros Hgt. rewrite decide_True by done.
      split; [apply gradient_index_Some; split; [lra | eauto]|].
      destruct (GRADIENT_lookup (clamp (Rtrunc (i * 3)) 0 9)) as [ch ->]; [|done].
      apply clamp_range. lia.
    + intros Hle. by rewrite decide_False.
  - split; [|reflexivity].
    rewrite gradient_index_Some by lra. f_equal.
    replace (1 * 3) with (IZR 3) by lra. by rewrite Rtrunc_IZR.
Qed.

Lemma apply_intensity_truncates_witness :
  (exists screen',
     Galaxy.apply_intensity (Galaxy.empty 1 1) [[" "%char]] [[1]]
       = Some screen' /\
     forall r c i old,
       grid_get [[1]] r c = Some i -> grid_get [[" "%char]] r c = Some old ->
       (0.1 < i ->
        Galaxy.gradient_index i = Some (clamp (Rtrunc (i * 3)) 0 9) /\
        grid_get screen' r c = GRADIENT !! Z.to_nat (clamp (Rtrunc (i * 3)) 0 9)) /\
       (~ 0.1 < i -> grid_get screen' r c = Some old)) /\
  Galaxy.gradient_index 1 = Some 3%Z /\ GRADIENT !! 3%nat = Some "-"%char.
Proof.
  apply (apply_intensity_truncates (Galaxy.empty 1 1) 1 1).
  - reflexivity.
  - reflexivity.
  - apply grid_shape_singleton.
  - apply grid_shape_singleton.
  - intros r c i ->%grid_get_singleton _. lra.
Defined.

(** C1 as stated fails: at intensity 0.6 the product is 1.8, which the
    code truncates to index 1 where rounding gives 2.  In binary64 the
    product is 1.7999999999999998 and the index is 1 as well. *)
Lemma gradient_index_truncates_not_rounds :
  0.1 < 0.6 /\
  Galaxy.gradient_index 0.6 = Some 1%Z /\
  spec_gradient_index 0.6 = 2%Z /\
  Galaxy.gradient_index (A:=Binary64) (Num.lit 0.6) = Some 1%Z.
Proof.
  split; [lra|]. split; [|split].
  - rewrite gradient_index_Some by lra.
    rewrite (Rtrunc_eq_nonneg 1) by (lra || lia). reflexivity.
  - unfold spec_gradient_index, spec_round.
    rewrite (Zfloor_eq 2) by lra. reflexivity.
  - vm_compute. reflexivity.
Qed.

(** C9.  Above the threshold the index is monotone in the intensity. *)
Theorem gradient_index_monotone (i1 i2 : R) :
  0.1 < i1 -> i1 <= i2 -> i2 * 3 < 2147483648 ->
  exists k1 k2,
    Galaxy.gradient_index i1 = Some k1 /\ Galaxy.gradient_index i2 = Some k2 /\
    (k1 <= k2)%Z.
Proof.
  intros H1 H12 H2.
  exists (clamp (Rtrunc (i1 * 3)) 0 9), (clamp (Rtrunc (i2 * 3)) 0 9).
  split; [apply gradient_index_Some; lra|].
  split; [apply gradient_index_Some; lra|].
  apply clamp_mono; [lia|]. apply Rtrunc_le. lra.
Qed.

Lemma gradient_index_monotone_witness :
  exists k1 k2,
    Galaxy.gradient_index 0.5 = Some k1 /\ Galaxy.gradient_index 2 = Some k2 /\
    (k1 <= k2)%Z.
Proof. apply (gradient_index_monotone 0.5 2); lra. Defined.

(** C10.  A cell whose intensity [i] satisfies [0.1 < i] and [i * 3 < 1]
    gets index 0, the space: after the pass it is blank, whatever glyph
    (a star's, say) it held before. *)
Theorem dim_cell_is_blanked (g : Galaxy.t) (h w : nat)
    (screen : Galaxy.Screen) (intensity : Galaxy.Intensity)
    (r c : Z) (i : R) (old : ascii) :
  Galaxy.height_ g = Z.of_nat h -> Galaxy.width_ g = Z.of_nat w ->
  grid_shape h w screen -> grid_shape h w intensity ->
  (forall r c i, grid_get intensity r c = Some i -> 0.1 < i -> i * 3 < 2147483648) ->
  grid_get intensity r c = Some i -> grid_get screen r c = Some old ->
  0.1 < i -> i * 3 < 1 ->
  Galaxy.gradient_index i = Some 0%Z /\
  GRADIENT !! Z.to_nat 0 = Some " "%char /\
  exists screen',
    Galaxy.apply_intensity g screen intensity = Some screen' /\
    grid_get screen' r c = Some " "%char.
Proof.
  intros Hh Hw Hs Hi Hsmall Hgi Hgo Hlo Hhi.
  assert (Rtrunc (i * 3) = 0%Z) as Htr by (apply Rtrunc_eq_nonneg; [lia | lra]).
  split; [|split; [reflexivity|]].
  - rewrite gradient_index_Some by lra. by rewrite Htr.
  - destruct (apply_intensity_spec g h w screen intensity Hh Hw Hs Hi Hsmall)
      as (screen' & Hrun & _ & Hcells).
    exists screen'. split; [exact Hrun|].
    rewrite (Hcells r c i old Hgi Hgo). unfold glyph_after.
    rewrite decide_True by done. by rewrite Htr.
Qed.

Lemma dim_cell_is_blanked_witness :
  Galaxy.gradient_index 0.2 = Some 0%Z /\
  GRADIENT !! Z.to_nat 0 = Some " "%char /\
  exists screen',
    Galaxy.apply_intensity (Galaxy.empty 1 1) [["*"%char]] [[0.2]]
      = Some screen' /\
    grid_get screen' 0 0 = Some " "%char.
Proof.
  apply (dim_cell_is_blanked (Galaxy.empty 1 1) 1 1
           [["*"%char]] [[0.2]] 0 0 0.2 "*"%char).
  - reflexivity.
  - reflexivity.
  - apply grid_shape_singleton.
  - apply grid_shape_singleton.
  - intros r c i ->%grid_get_singleton _. lra.
  - reflexivity.
  - reflexivity.
  - lra.
  - lra.
Defined.

(** *** The core overlay *)

Lemma quot2_bounds (w : Z) : (0 <= w)%Z -> (2 * (w ÷ 2) <= w < 2 * (w ÷ 2) + 2)%Z.
Proof.
  intros Hw. pose proof (Z.quot_rem' w 2) as Hqr.
  pose proof (Z.rem_bound_pos w 2 Hw ltac:(lia)). lia.
Qed.

Lemma nat_in_int_range (n : nat) :
  (Z.of_nat n <= 2147483647)%Z -> in_int_range (Z.of_nat n) = true.
Proof. intros H. apply in_int_range_spec. lia. Qed.

(** The pass with the centre of the constructor read back as cell
    coordinates. *)
Lemma render_core_eq (g : Galaxy.t) (h w : nat) (screen : Galaxy.Screen) :
  Galaxy.height_ g = Z.of_nat h -> Galaxy.width_ g = Z.of_nat w ->
  (Z.of_nat h <= 2147483647)%Z -> (Z.of_nat w <= 2147483647)%Z ->
  Galaxy.center_ g = Vec2.mk (IZR (Z.of_nat w) / 2) (IZR (Z.of_nat h) / 2) ->
  let cx := (Z.of_nat w ÷ 2)%Z in
  let cy := (Z.of_nat h ÷ 2)%Z in
  Galaxy.render_core g screen =
    if ((0 <? cx) && (cx <? Z.of_nat w - 1) && (0 <=? cy) && (cy <? Z.of_nat h))%Z
    then s1 ← grid_set screen cy cx "@"%char;
         s2 ← grid_set s1 cy (cx - 1) "("%char;
         grid_set s2 cy (cx + 1) ")"%char
    else Some screen.
Proof.
  intros Hh Hw Hhr Hwr Hc cx cy.
  unfold Galaxy.render_core. rewrite Hc, Hh, Hw. cbn [Vec2.x Vec2.y].
  pose proof (to_int_half (Z.of_nat w) (nat_in_int_range w Hwr)) as Hx.
  pose proof (to_int_half (Z.of_nat h) (nat_in_int_range h Hhr)) as Hy.
  revert Hx Hy. lits. rewrite lit_int'. intros -> ->. reflexivity.
Qed.

Lemma empty_center (w h : nat) :
  Galaxy.center_ (Galaxy.empty (Z.of_nat w) (Z.of_nat h)) =
    Vec2.mk (IZR (Z.of_nat w) / 2) (IZR (Z.of_nat h) / 2).
Proof. unfold Galaxy.empty. cbn [Galaxy.center_]. lits. f_equal; lra. Qed.

(** C2, as the code has it.  On a grid of [w] columns and [h] rows whose
    centre is [(w / 2.0, h / 2.0)], as the constructor sets it, the overlay
    is drawn exactly when [3 <= w] and [1 <= h]: then the three cells
    around the centre read '(', '@', ')' whatever they held, and no other
    cell changes.  On a narrower grid the pass draws nothing at all. *)
Theorem render_core_overlay (g : Galaxy.t) (h w : nat) (screen : Galaxy.Screen) :
  Galaxy.height_ g = Z.of_nat h -> Galaxy.width_ g = Z.of_nat w ->
  (Z.of_nat h <= 2147483647)%Z -> (Z.of_nat w <= 2147483647)%Z ->
  Galaxy.center_ g = Vec2.mk (IZR (Z.of_nat w) / 2) (IZR (Z.of_nat h) / 2) ->
  grid_shape h w screen ->
  let cx := (Z.of_nat w ÷ 2)%Z in
  let cy := (Z.of_nat h ÷ 2)%Z in
  ((3 <= w)%nat /\ (1 <= h)%nat ->
   exists screen',
     Galaxy.render_core g screen = Some screen' /\
     grid_shape h w screen' /\
     grid_get screen' cy (cx - 1) = Some "("%char /\
     grid_get screen' cy cx = Some "@"%char /\
     grid_get screen' cy (cx + 1) = Some ")"%char /\
     forall r c, ~ (r = cy /\ cx - 1 <= c <= cx + 1)%Z ->
       grid_get screen' r c = grid_get screen r c) /\
  (~ ((3 <= w)%nat /\ (1 <= h)%nat) -> Galaxy.render_core g screen = Some screen).
Proof.
  intros Hh Hw Hhr Hwr Hc Hs cx cy.
  pose proof (quot2_bounds (Z.of_nat w) ltac:(lia)) as Hqx.
  pose proof (quot2_bounds (Z.of_nat h) ltac:(lia)) as Hqy.
  rewrite (render_core_eq g h w screen Hh Hw Hhr Hwr Hc). fold cx cy.
  split.
  - intros [H3 H1].
    assert (((0 <? cx) && (cx <? Z.of_nat w - 1) && (0 <=? cy) && (cy <? Z.of_nat h))%Z
            = true) as ->.
    { subst cx cy. rewrite !andb_true_iff. lia. }
    destruct (grid_set_is_Some screen cy cx "@"%char) as [s1 H1s].
    { eapply grid_shape_get; eauto; subst cx cy; lia. }
    pose proof (grid_set_shape _ _ _ _ _ _ _ H1s Hs) as Hs1.
    destruct (grid_set_is_Some s1 cy (cx - 1) "("%char) as [s2 H2s].
    { eapply grid_shape_get; eauto; subst cx cy; lia. }
    pose proof (grid_set_shape _ _ _ _ _ _ _ H2s Hs1) as Hs2.
    destruct (grid_set_is_Some s2 cy (cx + 1) ")"%char) as [s3 H3s].
    { eapply grid_shape_get; eauto; subst cx cy; lia. }
    pose proof (grid_set_shape _ _ _ _ _ _ _ H3s Hs2) as Hs3.
    rewrite H1s. simpl. rewrite H2s. simpl. exists s3.
    split; [exact H3s|]. split; [exact Hs3|].
    assert (forall r c, grid_get s3 r c =
      if decide (r = cy /\ c = cx + 1)%Z then Some ")"%char
      else if decide (r = cy /\ c = cx - 1)%Z then Some "("%char
      else if decide (r = cy /\ c = cx)%Z then Some "@"%char
      else grid_get screen r c) as Hget.
    { intros r c. rewrite (grid_get_set _ _ _ _ _ r c H3s).
      rewrite (grid_get_set _ _ _ _ _ r c H2s).
      rewrite (grid_get_set _ _ _ _ _ r c H1s). reflexivity. }
    split; [|split; [|split]].
    + rewrite Hget. rewrite decide_False by lia. by rewrite decide_True.
    + rewrite Hget. rewrite !decide_False by lia. by rewrite decide_True.
    + rewrite Hget. by rewrite decide_True.
    + intros r c Hne. rewrite Hget. rewrite !decide_False by lia. reflexivity.
  - intros Hn.
    assert (((0 <? cx) && (cx <? Z.of_nat w - 1) && (0 <=? cy) && (cy <? Z.of_nat h))%Z
            = false) as ->; [|reflexivity].
    subst cx cy. apply not_true_is_false. rewrite !andb_true_iff. lia.
Qed.

Lemma render_core_overlay_witness :
  ((3 <= 10)%nat /\ (1 <= 6)%nat ->
   exists screen',
     Galaxy.render_core (Galaxy.empty 10 6) (replicate 6 (replicate 10 "*"%char))
       = Some screen' /\
     grid_shape 6 10 screen' /\
     grid_get screen' 3 4 = Some "("%char /\
     grid_get screen' 3 5 = Some "@"%char /\
     grid_get screen' 3 6 = Some ")"%char /\
     forall r c, ~ (r = 3 /\ 4 <= c <= 6)%Z ->
       grid_get screen' r c = grid_get (replicate 6 (replicate 10 "*"%char)) r c) /\
  (~ ((3 <= 10)%nat /\ (1 <= 6)%nat) ->
   Galaxy.render_core (Galaxy.empty 10 6) (replicate 6 (replicate 10 "*"%char))
     = Some (replicate 6 (replicate 10 "*"%char))).
Proof.
  apply (render_core_overlay (Galaxy.empty 10 6) 6 10 (replicate 6 (replicate 10 "*"%char))).
  - reflexivity.
  - reflexivity.
  - simpl. lia.
  - simpl. lia.
  - apply (empty_center 10 6).
  - apply grid_shape_replicate.
Defined.

(** C2 as stated fails on a grid two columns wide and one row high: the
    centre cell (column 1 of row 0) and the cell to its left are both on
    the grid, and the pass draws neither '@' nor '('.  The same holds in
    binary64. *)
Lemma core_not_drawn_on_narrow_grid :
  Galaxy.in_bounds (Galaxy.empty 2 1) 1 0 = true /\
  Galaxy.in_bounds (Galaxy.empty 2 1) 0 0 = true /\
  Num.to_int (Vec2.x (Galaxy.center_ (Galaxy.empty 2 1))) = Some 1%Z /\
  Num.to_int (Vec2.y (Galaxy.center_ (Galaxy.empty 2 1))) = Some 0%Z /\
  Galaxy.render_core (Galaxy.empty 2 1) [[" "; " "]%char] = Some [[" "; " "]%char] /\
  Galaxy.render_core (A:=Binary64) (Galaxy.empty 2 1) [[" "; " "]%char]
    = Some [[" "; " "]%char].
Proof.
  split; [reflexivity|]. split; [reflexivity|].
  split; [exact (to_int_half 2 eq_refl)|]. split; [exact (to_int_half 1 eq_refl)|].
  split.
  - rewrite (render_core_eq (Galaxy.empty 2 1) 1 2);
      [reflexivity | reflexivity | reflexivity | simpl; lia | simpl; lia |].
    apply (empty_center 2 1).
  - vm_compute. reflexivity.
Qed.

(** *** The star pass and the accumulation pass *)

Lemma in_bounds_spec (g : Galaxy.t) (px py : Z) :
  Galaxy.in_bounds g px py = true <->
  (0 <= px < Galaxy.width_ g)%Z /\ (0 <= py < Galaxy.height_ g)%Z.
Proof. unfold Galaxy.in_bounds. rewrite !andb_true_iff. lia. Qed.

Lemma render_star_shape (g : Galaxy.t) (h w : nat) (s : Star.t) (screen : Galaxy.Screen) :
  Galaxy.height_ g = Z.of_nat h -> Galaxy.width_ g = Z.of_nat w ->
  grid_shape h w screen ->
  is_Some (Num.to_int (Vec2.x (Star.pos s))) ->
  is_Some (Num.to_int (Vec2.y (Star.pos s))) ->
  exists screen', Galaxy.render_star g s screen = Some screen' /\ grid_shape h w screen'.
Proof.
  intros Hh Hw Hs [sx Hx] [sy Hy]. unfold Galaxy.render_star.
  rewrite Hx, Hy. simpl.
  destruct (Galaxy.in_bounds g sx sy) eqn:Hb; [|eauto].
  apply in_bounds_spec in Hb. rewrite Hh, Hw in Hb.
  assert (forall ch, exists screen',
            grid_set screen sy sx ch = Some screen' /\ grid_shape h w screen') as Hset.
  { intros ch. destruct (grid_set_is_Some screen sy sx ch) as [s' Hs'].
    - eapply grid_shape_get; eauto; lia.
    - eauto using grid_set_shape. }
  repeat case_match; eauto.
Qed.

(** The star pass has a result whenever every star's position converts to
    [int], and it keeps the shape of the grid. *)
Lemma render_stars_shape (g : Galaxy.t) (h w : nat) (screen : Galaxy.Screen) :
  Galaxy.height_ g = Z.of_nat h -> Galaxy.width_ g = Z.of_nat w ->
  grid_shape h w screen ->
  Forall (fun s => is_Some (Num.to_int (Vec2.x (Star.pos s))) /\
                   is_Some (Num.to_int (Vec2.y (Star.pos s)))) (Galaxy.stars_ g) ->
  exists screen', Galaxy.render_stars g screen = Some screen' /\ grid_shape h w screen'.
Proof.
  intros Hh Hw Hs Hstars. unfold Galaxy.render_stars.
  apply for_each_inv; [exact Hs|].
  intros s screen1 Hin Hs1.
  destruct (proj1 (Forall_forall _ _) Hstars s Hin) as [Hx Hy].
  by eapply render_star_shape.
Qed.

(** The cell a particle is projected to, when both casts are defined. *)
Definition particle_cell (g : Galaxy.t) (p : Particle.t) : option (Z * Z) :=
  let pos := Particle.get_position p (Galaxy.center_ g) (Galaxy.aspect_ratio_ g) in
  px ← Num.to_int (Vec2.x pos);
  py ← Num.to_int (Vec2.y pos);
  Some (px, py).

(** One step of the accumulation: a particle with no cell makes the pass
    undefined; one projected outside the grid changes nothing; one
    projected to a cell adds its brightness there. *)
Lemma accumulate_particle_spec (g : Galaxy.t) (h w : nat) (p : Particle.t)
    (s : Galaxy.Intensity) :
  Galaxy.height_ g = Z.of_nat h -> Galaxy.width_ g = Z.of_nat w ->
  grid_shape h w s ->
  match particle_cell g p with
  | None => Galaxy.accumulate_particle g p s = None
  | Some (px, py) =>
      exists s', Galaxy.accumulate_particle g p s = Some s' /\ grid_shape h w s' /\
        forall r c, grid_get s' r c =
          if decide (Galaxy.in_bounds g px py = true /\ r = py /\ c = px)
          then (fun v => v + Particle.brightness p) <$> grid_get s r c
          else grid_get s r c
  end.
Proof.
  intros Hh Hw Hs. unfold particle_cell, Galaxy.accumulate_particle.
  set (pos := Particle.get_position p (Galaxy.center_ g) (Galaxy.aspect_ratio_ g)).
  destruct (Num.to_int (Vec2.x pos)) as [px|]; [|reflexivity].
  cbn [mbind option_bind].
  destruct (Num.to_int (Vec2.y pos)) as [py|]; [|reflexivity].
  cbn [mbind option_bind].
  destruct (Galaxy.in_bounds g px py) eqn:Hb.
  - pose proof (proj1 (in_bounds_spec g px py) Hb) as Hb'. rewrite Hh, Hw in Hb'.
    destruct (grid_shape_get h w s py px Hs) as [old Hold]; [lia | lia |].
    rewrite Hold. simpl.
    destruct (grid_set_is_Some s py px (old + Particle.brightness p)%num) as [s' Hs'];
      [eauto|].
    exists s'. split; [exact Hs'|]. split; [by eapply grid_set_shape|].
    intros r c. etrans; [exact (grid_get_set _ _ _ _ _ r c Hs')|].
    destruct (decide (r = py /\ c = px)) as [[-> ->]|Hne].
    + rewrite decide_True by done. real. by rewrite Hold.
    + rewrite decide_False by tauto. done.
  - exists s. split; [done|]. split; [done|].
    intros r c. rewrite decide_False; [done|]. intros [? _]. discriminate.
Qed.

(** Two steps of the accumulation commute: the cells are the same, and
    where both particles land on one cell the two brightnesses are added
    in either order. *)
Lemma accumulate_particle_comm (g : Galaxy.t) (h w : nat) (p q : Particle.t)
    (s : Galaxy.Intensity) :
  Galaxy.height_ g = Z.of_nat h -> Galaxy.width_ g = Z.of_nat w ->
  grid_shape h w s ->
  Galaxy.accumulate_particle g p s ≫= Galaxy.accumulate_particle g q =
  Galaxy.accumulate_particle g q s ≫= Galaxy.accumulate_particle g p.
Proof.
  intros Hh Hw Hs.
  pose proof (accumulate_particle_spec g h w p s Hh Hw Hs) as Hp.
  pose proof (accumulate_particle_spec g h w q s Hh Hw Hs) as Hq.
  destruct (particle_cell g p) as [[px py]|] eqn:Hcp;
    destruct (particle_cell g q) as [[qx qy]|] eqn:Hcq.
  - destruct Hp as (s1 & -> & Hs1 & Hc1). destruct Hq as (s1' & -> & Hs1' & Hc1').
    cbn [mbind option_bind].
    pose proof (accumulate_particle_spec g h w q s1 Hh Hw Hs1) as Hq2.
    pose proof (accumulate_particle_spec g h w p s1' Hh Hw Hs1') as Hp2.
    rewrite Hcq in Hq2. rewrite Hcp in Hp2.
    destruct Hq2 as (s2 & -> & Hs2 & Hc2). destruct Hp2 as (s2' & -> & Hs2' & Hc2').
    f_equal. apply (grid_ext h w); [done | done |].
    intros r c. rewrite Hc2, Hc2', Hc1, Hc1'.
    repeat case_decide; try reflexivity;
      destruct (grid_get s r c) as [v|]; try reflexivity;
      cbn [fmap option_fmap option_map]; f_equal; real; ring.
  - destruct Hp as (s1 & -> & Hs1 & _). rewrite Hq. cbn [mbind option_bind].
    pose proof (accumulate_particle_spec g h w q s1 Hh Hw Hs1) as Hq2.
    by rewrite Hcq in Hq2.
  - destruct Hq as (s1 & -> & Hs1 & _). rewrite Hp. cbn [mbind option_bind].
    pose proof (accumulate_particle_spec g h w p s1 Hh Hw Hs1) as Hp2.
    by rewrite Hcp in Hp2.
  - by rewrite Hp, Hq.
Qed.

Lemma accumulate_particle_shape (g : Galaxy.t) (h w : nat) (p : Particle.t)
    (s s' : Galaxy.Intensity) :
  Galaxy.height_ g = Z.of_nat h -> Galaxy.width_ g = Z.of_nat w ->
  grid_shape h w s -> Galaxy.accumulate_particle g p s = Some s' -> grid_shape h w s'.
Proof.
  intros Hh Hw Hs Hrun.
  pose proof (accumulate_particle_spec g h w p s Hh Hw Hs) as Hp.
  destruct (particle_cell g p) as [[px py]|]; [|congruence].
  destruct Hp as (s1 & Hrun1 & Hs1 & _). congruence.
Qed.

(** C8, in exact arithmetic.  On the intensity grid of the galaxy, the
    accumulation pass over any permutation of the particle collection
    gives the same outcome: the same grid, cell for cell, or no result in
    both orders when some particle's position has no [int] value. *)
Theorem accumulate_order_independent (g : Galaxy.t) (h w : nat)
    (ps : list Particle.t) (intensity : Galaxy.Intensity) :
  Galaxy.height_ g = Z.of_nat h -> Galaxy.width_ g = Z.of_nat w ->
  grid_shape h w intensity ->
  Permutation (Galaxy.particles_ g) ps ->
  Galaxy.accumulate_particles (Galaxy.set_particles ps g) intensity =
  Galaxy.accumulate_particles g intensity.
Proof.
  intros Hh Hw Hs Hperm. unfold Galaxy.accumulate_particles.
  change (Galaxy.accumulate_particle (Galaxy.set_particles ps g))
    with (Galaxy.accumulate_particle g).
  cbn [Galaxy.set_particles Galaxy.particles_]. symmetry.
  apply (for_each_perm (grid_shape h w)); [exact Hperm | | | exact Hs].
  - intros p s s' Hs1 Hrun. by eapply accumulate_particle_shape.
  - intros p q s Hs1. by eapply accumulate_particle_comm.
Qed.

Lemma accumulate_order_independent_witness :
  let p1 := Particle.new (A:=Real) 1 0 0.1 0.5 in
  let p2 := Particle.new (A:=Real) 2 0 0.1 0.25 in
  let g := Galaxy.set_particles [p1; p2] (Galaxy.empty 10 6) in
  let zero := replicate 6 (replicate 10 0) in
  Galaxy.accumulate_particles (Galaxy.set_particles [p2; p1] g) zero =
  Galaxy.accumulate_particles g zero.
Proof.
  intros p1 p2 g zero.
  apply (accumulate_order_independent g 6 10 [p2; p1] zero).
  - reflexivity.
  - reflexivity.
  - apply grid_shape_replicate.
  - apply perm_swap.
Defined.

(** C8 as stated fails in the arithmetic the program runs: binary64
    addition is not associative.  Three particles of brightness 0.1, 0.2
    and 0.3 on one cell (column 7 of row 3 on a 10 x 6 grid) accumulate to
    the double above 0.6 in this order and to 0.6 in the reverse order. *)
Lemma accumulation_order_matters_in_binary64 :
  let p := fun b : Q =>
    Particle.new (A:=Binary64) (Num.lit 1) (Num.lit 0) (Num.lit 0.1) (Num.lit b) in
  let ps := [p 0.1%Q; p 0.2%Q; p 0.3%Q] in
  let g := Galaxy.set_particles ps (Galaxy.empty 10 6) in
  let zero := replicate 6 (replicate 10 (Num.lit (Arith:=Binary64) 0)) in
  Permutation ps (rev ps) /\
  Galaxy.zero_intensity g = Some zero /\
  Galaxy.accumulate_particles g zero ≫= (fun i => grid_get i 3 7)
    = Some (PrimFloat.next_up (Num.lit (Arith:=Binary64) 0.6)) /\
  Galaxy.accumulate_particles (Galaxy.set_particles (rev ps) g) zero
    ≫= (fun i => grid_get i 3 7) = Some (Num.lit (Arith:=Binary64) 0.6) /\
  Galaxy.accumulate_particles (Galaxy.set_particles (rev ps) g) zero
    <> Galaxy.accumulate_particles g zero.
Proof.
  intros p ps g zero.
  split; [apply Permutation_rev|]. split; [reflexivity|].
  split; [vm_compute; reflexivity|]. split; [vm_compute; reflexivity|].
  intros H.
  apply (f_equal (fun o => o ≫= (fun i => grid_get i 3 7))) in H.
  apply (f_equal (fun o => Prim2SF <$> o)) in H.
  vm_compute in H. discriminate H.
Qed.

(** *** [update] and the wrap of angles *)

(** One [Particle::update]: the angle advances by [angular_velocity * dt]
    and is moved by at most one full turn; nothing else changes. *)
Lemma particle_update_angle (dt : R) (p : Particle.t) :
  let a := Particle.angle p + Particle.angular_velocity p * dt in
  Particle.angle (Particle.update dt p) =
    (if decide (2 * PI < a)
     then (if decide (a - 2 * PI < 0) then a - 2 * PI + 2 * PI else a - 2 * PI)
     else (if decide (a < 0) then a + 2 * PI else a)) /\
  Particle.angular_velocity (Particle.update dt p) = Particle.angular_velocity p /\
  Particle.radius (Particle.update dt p) = Particle.radius p /\
  Particle.brightness (Particle.update dt p) = Particle.brightness p.
Proof.
  unfold Particle.update, Particle.set_angle.
  cbn [Particle.angle Particle.angular_velocity Particle.radius Particle.brightness].
  split; [|done]. lits. rewrite !lit_int'.
  replace (0 * / 1) with 0 by lra.
  destruct (decide (2 * PI < Particle.angle p + Particle.angular_velocity p * dt))
    as [H1|H1].
  - rewrite (bool_decide_eq_true_2 _ H1). case_decide as H2.
    + by rewrite (bool_decide_eq_true_2 _ H2).
    + by rewrite (bool_decide_eq_false_2 _ H2).
  - rewrite (bool_decide_eq_false_2 _ H1). case_decide as H2.
    + by rewrite (bool_decide_eq_true_2 _ H2).
    + by rewrite (bool_decide_eq_false_2 _ H2).
Qed.

Lemma star_update_phase (dt : R) (s : Star.t) :
  let a := Star.phase s + Star.speed s * dt in
  Star.phase (Star.update dt s) = (if decide (2 * PI < a) then a - 2 * PI else a) /\
  Star.speed (Star.update dt s) = Star.speed s /\
  Star.pos (Star.update dt s) = Star.pos s /\
  Star.base_brightness (Star.update dt s) = Star.base_brightness s.
Proof.
  unfold Star.update. cbn [Star.phase Star.speed Star.pos Star.base_brightness].
  split; [|done]. lits. rewrite !lit_int'. case_decide as H1.
  - by rewrite (bool_decide_eq_true_2 _ H1).
  - by rewrite (bool_decide_eq_false_2 _ H1).
Qed.

(** What [update] finds and what it leaves. *)
Definition particle_loose (p : Particle.t) : Prop :=
  - 0.2 <= Particle.angle p <= 3.5 * PI + 0.2 /\ 0 < Particle.angular_velocity p <= 0.3.
Definition particle_wrapped (p : Particle.t) : Prop :=
  0 <= Particle.angle p <= 2 * PI /\ 0 < Particle.angular_velocity p <= 0.3.
Definition star_wrapped (s : Star.t) : Prop :=
  0 <= Star.phase s <= 2 * PI /\ 0.5 <= Star.speed s < 2.

Lemma particle_update_wraps (dt : R) (p : Particle.t) :
  0 <= dt <= 1 -> particle_loose p -> particle_wrapped (Particle.update dt p).
Proof.
  intros Hdt [Ha Hv]. destruct (particle_update_angle dt p) as (Hang & Hav & _).
  unfold particle_wrapped. rewrite Hang, Hav. split; [|done].
  pose proof PI2_3_2 as Hpi.
  assert (0 <= Particle.angular_velocity p * dt <= 0.3) as Hd by nra.
  repeat case_decide; lra.
Qed.

Lemma particle_wrapped_loose (p : Particle.t) : particle_wrapped p -> particle_loose p.
Proof. intros [Ha Hv]. pose proof PI2_3_2. split; [lra | done]. Qed.

Lemma star_update_wraps (dt : R) (s : Star.t) :
  0 <= dt <= 1 -> star_wrapped s -> star_wrapped (Star.update dt s).
Proof.
  intros Hdt [Ha Hv]. destruct (star_update_phase dt s) as (Hph & Hsp & _).
  unfold star_wrapped. rewrite Hph, Hsp. split; [|done].
  pose proof PI2_3_2 as Hpi.
  assert (0 <= Star.speed s * dt <= 2) as Hd by nra.
  case_decide; lra.
Qed.

Lemma update_iter_particles (dt : R) (k : nat) (g : Galaxy.t) :
  Galaxy.particles_ (Nat.iter k (Galaxy.update dt) g) =
    map (Nat.iter k (Particle.update dt)) (Galaxy.particles_ g).
Proof.
  induction k as [|k IH]; simpl.
  - by rewrite map_id.
  - rewrite IH, map_map. reflexivity.
Qed.

Lemma update_iter_stars (dt : R) (k : nat) (g : Galaxy.t) :
  Galaxy.stars_ (Nat.iter k (Galaxy.update dt) g) =
    map (Nat.iter k (Star.update dt)) (Galaxy.stars_ g).
Proof.
  induction k as [|k IH]; simpl.
  - by rewrite map_id.
  - rewrite IH, map_map. reflexivity.
Qed.

Lemma particle_iter_wrapped (dt : R) (k : nat) (p : Particle.t) :
  0 <= dt <= 1 -> particle_loose p ->
  particle_wrapped (Nat.iter (S k) (Particle.update dt) p).
Proof.
  intros Hdt Hp. induction k as [|k IH].
  - by apply particle_update_wraps.
  - rewrite Nat.iter_succ.
    apply particle_update_wraps; [done|]. by apply particle_wrapped_loose.
Qed.

Lemma star_iter_wrapped (dt : R) (k : nat) (s : Star.t) :
  0 <= dt <= 1 -> star_wrapped s -> star_wrapped (Nat.iter k (Star.update dt) s).
Proof.
  intros Hdt Hs. induction k as [|k IH]; [done|].
  simpl. by apply star_update_wraps.
Qed.

(** *** The layout built by the constructor *)

Section Layout.
Variable canonical : nat -> R.

(** The particle that one iteration of the arm loop emplaces, from the two
    values it draws. *)
Definition arm_particle (arm_offset : R) (i : Z) (n : nat) : Particle.t :=
  let t := IZR i / 150 in
  let radius := 2 + t * 14 + (canonical n * (1 - -1) + -1) * (0.5 + t * 1.5) in
  let angle := arm_offset + t * 2.5 * PI + (canonical (S n) * (0.2 - -0.2) + -0.2) in
  Particle.new radius angle (0.15 / sqrt radius)%R (0.3 + 0.7 * (1 - t * 0.6))%R.

Definition core_particle (i : Z) (n : nat) : Particle.t :=
  let radius := canonical n * (3 - 0.5) + 0.5 in
  let angle := canonical (S n) * (2 * PI - 0) + 0 in
  Particle.new radius angle (0.3 / sqrt (radius + 0.5))%R
    (0.8 + (canonical (S (S n)) * (0.2 - 0) + 0))%R.

Lemma init_arm_particle_eq (arm_offset : R) (i : Z) (g : Galaxy.t) (n : nat) :
  Galaxy.init_arm_particle canonical arm_offset i (g, n) =
    (Galaxy.emplace_particle (arm_particle arm_offset i n) g, (n + 2)%nat).
Proof.
  unfold Galaxy.init_arm_particle, arm_particle, random_double, Galaxy.particles_per_arm.
  cbn [fst snd]. rewrite Nat.add_comm. cbn [Nat.add]. f_equal. f_equal.
  lits. unfold Particle.new. rewrite !lit_int'. f_equal; f_equal; lra.
Qed.

Lemma init_core_particle_eq (i : Z) (g : Galaxy.t) (n : nat) :
  Galaxy.init_core_particle canonical i (g, n) =
    (Galaxy.emplace_particle (core_particle i n) g, (n + 3)%nat).
Proof.
  unfold Galaxy.init_core_particle, core_particle, random_double.
  cbn [fst snd]. rewrite Nat.add_comm. cbn [Nat.add]. f_equal. f_equal.
  lits. unfold Particle.new. rewrite ?lit_int'. f_equal; f_equal; lra.
Qed.

(** [l] emplaced at the back of the particle vector, one by one. *)
Definition add_particles (l : list Particle.t) (g : Galaxy.t) : Galaxy.t :=
  Galaxy.set_particles (Galaxy.particles_ g ++ l) g.

Lemma add_particles_nil (g : Galaxy.t) : add_particles [] g = g.
Proof. destruct g. unfold add_particles, Galaxy.set_particles. simpl. by rewrite app_nil_r. Qed.

Lemma add_particles_cons (p : Particle.t) (l : list Particle.t) (g : Galaxy.t) :
  add_particles (p :: l) g = add_particles l (Galaxy.emplace_particle p g).
Proof.
  unfold add_particles, Galaxy.set_particles, Galaxy.emplace_particle. simpl.
  by rewrite <- app_assoc.
Qed.

Lemma add_particles_app (l1 l2 : list Particle.t) (g : Galaxy.t) :
  add_particles (l1 ++ l2) g = add_particles l2 (add_particles l1 g).
Proof.
  unfold add_particles, Galaxy.set_particles. simpl. by rewrite app_assoc.
Qed.

(** A loop whose body emplaces one particle and makes [k] draws builds
    the list of these particles in order. *)
Lemma for_loop_emplace (mkp : Z -> nat -> Particle.t) (k : nat)
    (body : Z -> Galaxy.t * nat -> Galaxy.t * nat) :
  (forall i g n, body i (g, n) = (Galaxy.emplace_particle (mkp i n) g, (n + k)%nat)) ->
  forall (cnt : nat) (i0 : Z) (g : Galaxy.t) (n : nat),
    for_loop cnt i0 body (g, n) =
      (add_particles
         (map (fun j => mkp (i0 + Z.of_nat j)%Z (n + k * j)%nat) (seq 0 cnt)) g,
       (n + k * cnt)%nat).
Proof.
  intros Hbody cnt. induction cnt as [|cnt IH]; intros i0 g n.
  - simpl. rewrite add_particles_nil. f_equal. lia.
  - cbn [for_loop]. rewrite Hbody, IH.
    cbn [seq map]. rewrite add_particles_cons. f_equal; [|lia].
    replace (i0 + Z.of_nat 0)%Z with i0 by lia.
    replace (n + k * 0)%nat with n by lia. f_equal.
    rewrite <- seq_shift, map_map. apply map_ext. intros j. f_equal; lia.
Qed.

Definition arm_particles (arm : Z) (n : nat) : list Particle.t :=
  map (fun j => arm_particle (IZR arm * PI) (Z.of_nat j) (n + 2 * j)%nat) (seq 0 150).

Definition core_particles (n : nat) : list Particle.t :=
  map (fun j => core_particle (Z.of_nat j) (n + 3 * j)%nat) (seq 0 60).

Lemma init_spiral_arms_eq (g : Galaxy.t) (n : nat) :
  Galaxy.init_spiral_arms canonical (g, n) =
    (add_particles (arm_particles 0 n ++ arm_particles 1 (n + 300)) g, (n + 600)%nat).
Proof.
  unfold Galaxy.init_spiral_arms, Galaxy.num_arms, Galaxy.particles_per_arm, for_range.
  change (Z.to_nat (2 - 0)) with 2%nat. cbn [for_loop].
  change (Z.to_nat (150 - 0)) with 150%nat. real.
  rewrite (for_loop_emplace (arm_particle (IZR 0 * PI)) 2)
    by (intros; apply init_arm_particle_eq).
  rewrite (for_loop_emplace (arm_particle (IZR (0 + 1) * PI)) 2)
    by (intros; apply init_arm_particle_eq).
  rewrite add_particles_app. unfold arm_particles. f_equal. lia.
Qed.

Lemma init_core_eq (g : Galaxy.t) (n : nat) :
  Galaxy.init_core canonical (g, n) = (add_particles (core_particles n) g, (n + 180)%nat).
Proof.
  unfold Galaxy.init_core, Galaxy.core_particles, for_range.
  change (Z.to_nat (60 - 0)) with 60%nat.
  rewrite (for_loop_emplace core_particle 3) by (intros; apply init_core_particle_eq).
  reflexivity.
Qed.

(** What [uniform_real_distribution] guarantees of its draws. *)
Hypothesis canonical_range : forall n, 0 <= canonical n < 1.

(** The bounds the layout gives a spiral-arm particle and a core particle. *)
Definition arm_particle_ok (p : Particle.t) : Prop :=
  1.5 <= Particle.radius p < 18 /\
  - 0.2 <= Particle.angle p < 3.5 * PI + 0.2 /\
  0 < Particle.angular_velocity p <= 0.15 /\
  0 <= Particle.brightness p <= 1.

Definition core_particle_ok (p : Particle.t) : Prop :=
  0.5 <= Particle.radius p < 3 /\
  0 <= Particle.angle p < 2 * PI /\
  0 < Particle.angular_velocity p <= 0.3 /\
  0 <= Particle.brightness p <= 1.

Lemma inv_sqrt_bounds (c r : R) : 0 < c -> 1 <= r -> 0 < c / sqrt r <= c.
Proof.
  intros Hc Hr.
  assert (1 <= sqrt r) as Hs.
  { rewrite <- sqrt_1. apply sqrt_le_1; lra. }
  assert (0 < / sqrt r <= 1) as [Hi0 Hi1].
  { split; [apply Rinv_0_lt_compat; lra|].
    rewrite <- Rinv_1. apply Rinv_le_contravar; lra. }
  unfold Rdiv. nra.
Qed.

Lemma arm_particle_bounds (arm i : Z) (n : nat) :
  (0 <= arm <= 1)%Z -> (0 <= i < 150)%Z ->
  arm_particle_ok (arm_particle (IZR arm * PI) i n).
Proof.
  intros Harm Hi. unfold arm_particle_ok, arm_particle, Particle.new.
  cbn [Particle.radius Particle.angle Particle.angular_velocity Particle.brightness].
  pose proof (canonical_range n) as Hu1. pose proof (canonical_range (S n)) as Hu2.
  pose proof PI_RGT_0 as Hpi.
  assert (0 <= IZR i / 150 < 1) as Ht.
  { destruct Hi as [Hi0 Hi1]. apply IZR_le in Hi0. apply IZR_lt in Hi1. lra. }
  assert (0 <= IZR arm <= 1) as Ha.
  { destruct Harm as [Ha0 Ha1]. apply IZR_le in Ha0, Ha1. lra. }
  set (t := IZR i / 150) in *. set (u1 := canonical n) in *.
  set (u2 := canonical (S n)) in *.
  assert (1.5 <= 2 + t * 14 + (u1 * (1 - -1) + -1) * (0.5 + t * 1.5) < 18) as Hr.
  { pose proof (Rmult_le_pos (u1 * (1 - -1) + -1 + 1) (0.5 + t * 1.5)
                  ltac:(lra) ltac:(lra)).
    pose proof (Rmult_lt_0_compat (1 - (u1 * (1 - -1) + -1)) (0.5 + t * 1.5)
                  ltac:(lra) ltac:(lra)).
    lra. }
  assert (0 <= t * PI < PI) as Htp.
  { pose proof (Rmult_le_pos t PI ltac:(lra) ltac:(lra)).
    pose proof (Rmult_lt_0_compat (1 - t) PI ltac:(lra) ltac:(lra)). lra. }
  assert (0 <= IZR arm * PI <= PI) as Hap.
  { pose proof (Rmult_le_pos (IZR arm) PI ltac:(lra) ltac:(lra)).
    pose proof (Rmult_le_pos (1 - IZR arm) PI ltac:(lra) ltac:(lra)). lra. }
  split; [exact Hr|]. split; [lra|]. split; [apply inv_sqrt_bounds; lra | lra].
Qed.

Lemma core_particle_bounds (i : Z) (n : nat) : core_particle_ok (core_particle i n).
Proof.
  unfold core_particle_ok, core_particle, Particle.new.
  cbn [Particle.radius Particle.angle Particle.angular_velocity Particle.brightness].
  pose proof (canonical_range n) as Hu1. pose proof (canonical_range (S n)) as Hu2.
  pose proof (canonical_range (S (S n))) as Hu3. pose proof PI_RGT_0 as Hpi.
  assert (0 <= canonical (S n) * PI < PI) as Hup.
  { pose proof (Rmult_le_pos (canonical (S n)) PI ltac:(lra) ltac:(lra)).
    pose proof (Rmult_lt_0_compat (1 - canonical (S n)) PI ltac:(lra) ltac:(lra)). lra. }
  split; [lra|]. split; [lra|]. split; [|lra].
  apply (inv_sqrt_bounds 0.3 (canonical n * (3 - 0.5) + 0.5 + 0.5)); lra.
Qed.

Lemma arm_particles_ok (arm : Z) (n : nat) :
  (0 <= arm <= 1)%Z -> Forall arm_particle_ok (arm_particles arm n).
Proof.
  intros Harm. unfold arm_particles. apply Forall_forall.
  intros p (j & <- & Hj)%list_elem_of_In%in_map_iff. apply in_seq in Hj.
  apply arm_particle_bounds; [done | lia].
Qed.

Lemma core_particles_ok (n : nat) : Forall core_particle_ok (core_particles n).
Proof.
  unfold core_particles. apply Forall_forall.
  intros p (j & <- & Hj)%list_elem_of_In%in_map_iff. apply core_particle_bounds.
Qed.

(** The bounds the layout gives a background star on a [w] by [h] grid. *)
Definition star_ok (w h : Z) (s : Star.t) : Prop :=
  ((0 <= w)%Z -> 0 <= Vec2.x (Star.pos s) <= IZR w) /\
  ((0 <= h)%Z -> 0 <= Vec2.y (Star.pos s) <= IZR h) /\
  0 <= Star.phase s < 2 * PI /\
  0.5 <= Star.speed s < 2 /\
  0.3 <= Star.base_brightness s < 1.

Lemma init_background_star_spec (i : Z) (g : Galaxy.t) (n : nat) :
  exists s, star_ok (Galaxy.width_ g) (Galaxy.height_ g) s /\
    Galaxy.init_background_star canonical i (g, n) = (Galaxy.push_star s g, (n + 5)%nat).
Proof.
  unfold Galaxy.init_background_star, random_double. cbn [fst snd].
  eexists. split; [|f_equal; try reflexivity; lia].
  unfold star_ok. cbn [Star.pos Star.phase Star.speed Star.base_brightness Vec2.x Vec2.y].
  pose proof (canonical_range n). pose proof (canonical_range (S n)).
  pose proof (canonical_range (S (S n))). pose proof (canonical_range (S (S (S n)))).
  pose proof (canonical_range (S (S (S (S n))))). pose proof PI_RGT_0.
  lits. rewrite !lit_int'.
  assert (forall u b : R, 0 <= u < 1 -> 0 <= b -> 0 <= u * (b - 0) + 0 <= b)
    as Hscale.
  { intros u b Hu Hb. pose proof (Rmult_le_pos u b ltac:(lra) Hb).
    pose proof (Rmult_le_pos (1 - u) b ltac:(lra) Hb). lra. }
  split; [intros Hw; apply Hscale; [done | by apply IZR_le]|].
  split; [intros Hh; apply Hscale; [done | by apply IZR_le]|].
  assert (0 <= canonical (S (S n)) * PI < PI).
  { pose proof (Rmult_le_pos (canonical (S (S n))) PI ltac:(lra) ltac:(lra)).
    pose proof (Rmult_lt_0_compat (1 - canonical (S (S n))) PI ltac:(lra) ltac:(lra)).
    lra. }
  split; [lra|]. split; lra.
Qed.

(** The star loop adds stars within their bounds and touches nothing
    else of the object. *)
Lemma init_background_stars_spec (g : Galaxy.t) (n : nat) :
  let g' := fst (Galaxy.init_background_stars canonical (g, n)) in
  Galaxy.particles_ g' = Galaxy.particles_ g /\
  Galaxy.center_ g' = Galaxy.center_ g /\
  Galaxy.width_ g' = Galaxy.width_ g /\
  Galaxy.height_ g' = Galaxy.height_ g /\
  Galaxy.aspect_ratio_ g' = Galaxy.aspect_ratio_ g /\
  (Forall (star_ok (Galaxy.width_ g) (Galaxy.height_ g)) (Galaxy.stars_ g) ->
   Forall (star_ok (Galaxy.width_ g) (Galaxy.height_ g)) (Galaxy.stars_ g')).
Proof.
  unfold Galaxy.init_background_stars, for_range.
  pose (Inv := fun (_ : Z) (st : Galaxy.t * nat) =>
    Galaxy.particles_ (fst st) = Galaxy.particles_ g /\
    Galaxy.center_ (fst st) = Galaxy.center_ g /\
    Galaxy.width_ (fst st) = Galaxy.width_ g /\
    Galaxy.height_ (fst st) = Galaxy.height_ g /\
    Galaxy.aspect_ratio_ (fst st) = Galaxy.aspect_ratio_ g /\
    (Forall (star_ok (Galaxy.width_ g) (Galaxy.height_ g)) (Galaxy.stars_ g) ->
     Forall (star_ok (Galaxy.width_ g) (Galaxy.height_ g)) (Galaxy.stars_ (fst st)))).
  apply (for_loop_inv Inv).
  - unfold Inv. simpl. tauto.
  - intros j [g1 n1] _ (Hp & Hc & Hw & Hh & Ha & Hs).
    destruct (init_background_star_spec j g1 n1) as (s & Hok & ->).
    unfold Inv. cbn [fst Galaxy.push_star Galaxy.particles_ Galaxy.center_
      Galaxy.width_ Galaxy.height_ Galaxy.aspect_ratio_ Galaxy.stars_].
    cbn [fst] in *. rewrite Hw, Hh in Hok.
    repeat (split; [assumption|]).
    intros H0. apply Forall_app. split; [auto|]. by constructor.
Qed.

(** The object the constructor builds: the two arms, then the core, then
    stars within their bounds, around the centre of the grid. *)
Lemma new_spec (w h : Z) (n : nat) :
  let g := fst (Galaxy.new canonical w h n) in
  Galaxy.particles_ g =
    arm_particles 0 n ++ arm_particles 1 (n + 300) ++ core_particles (n + 600) /\
  Forall (star_ok w h) (Galaxy.stars_ g) /\
  Galaxy.center_ g = Vec2.mk (IZR w / 2) (IZR h / 2) /\
  Galaxy.width_ g = w /\ Galaxy.height_ g = h /\ Galaxy.aspect_ratio_ g = 2.
Proof.
  unfold Galaxy.new. rewrite init_spiral_arms_eq, init_core_eq.
  match goal with |- context [Galaxy.init_background_stars canonical (?g0, ?n0)] =>
    pose proof (init_background_stars_spec g0 n0) as (Hp & Hc & Hw & Hh & Ha & Hs)
  end.
  cbn zeta. rewrite Hp, Hc, Hw, Hh, Ha.
  unfold add_particles, Galaxy.set_particles, Galaxy.empty.
  cbn [Galaxy.particles_ Galaxy.center_ Galaxy.width_ Galaxy.height_
       Galaxy.aspect_ratio_ Galaxy.stars_ app] in *.
  split; [by rewrite <- app_assoc|]. split; [apply Hs; constructor|].
  split; [lits; rewrite !lit_int'; reflexivity|].
  split; [reflexivity|]. split; [reflexivity|]. lits. lra.
Qed.

Lemma length_arm_particles (arm : Z) (n : nat) : List.length (arm_particles arm n) = 150%nat.
Proof. unfold arm_particles. by rewrite length_map, length_seq. Qed.

Lemma length_core_particles (n : nat) : List.length (core_particles n) = 60%nat.
Proof. unfold core_particles. by rewrite length_map, length_seq. Qed.

Lemma arm_particles_lookup (arm : Z) (n j : nat) :
  (j < 150)%nat ->
  arm_particles arm n !! j = Some (arm_particle (IZR arm * PI) (Z.of_nat j) (n + 2 * j)%nat).
Proof.
  intros Hj. unfold arm_particles. rewrite lookup_map.
  rewrite (lookup_seq_lt 0 150 j Hj). reflexivity.
Qed.

(** C4, as the code has it.  The constructor makes 300 spiral-arm
    particles followed by 60 core particles.  All have a radius of at
    least 0 and a brightness in [0, 1].  The angle of a core particle lies
    in [0, 2 pi); the angle of an arm particle is stored as computed,
    unwrapped, within [-0.2, 3.5 pi + 0.2). *)
Theorem layout_particle_bounds (w h : Z) (n : nat) :
  exists arms core,
    Galaxy.particles_ (fst (Galaxy.new canonical w h n)) = arms ++ core /\
    List.length arms = 300%nat /\ List.length core = 60%nat /\
    Forall (fun p => 0 <= Particle.radius p /\
                     0 <= Particle.brightness p <= 1 /\
                     - 0.2 <= Particle.angle p < 3.5 * PI + 0.2) arms /\
    Forall (fun p => 0 <= Particle.radius p /\
                     0 <= Particle.brightness p <= 1 /\
                     0 <= Particle.angle p < 2 * PI) core.
Proof.
  destruct (new_spec w h n) as (Hp & _).
  exists (arm_particles 0 n ++ arm_particles 1 (n + 300)), (core_particles (n + 600)).
  split; [by rewrite Hp, <- app_assoc|].
  split; [by rewrite length_app, !length_arm_particles|].
  split; [apply length_core_particles|]. split.
  - apply Forall_app. split.
    + eapply Forall_impl; [apply arm_particles_ok; lia|].
      intros p (Hr & Ha & _ & Hb). repeat split; lra.
    + eapply Forall_impl; [apply arm_particles_ok; lia|].
      intros p (Hr & Ha & _ & Hb). repeat split; lra.
  - eapply Forall_impl; [apply core_particles_ok|].
    intros p (Hr & Ha & _ & Hb). repeat split; lra.
Qed.

(** The last particle of the second arm starts more than a full turn
    round, whatever the draws. *)
Lemma last_arm_particle_angle (w h : Z) (n : nat) :
  exists p, Galaxy.particles_ (fst (Galaxy.new canonical w h n)) !! 299%nat = Some p /\
            2 * PI < Particle.angle p.
Proof.
  destruct (new_spec w h n) as (Hp & _). rewrite Hp.
  eexists. split.
  - rewrite lookup_app_r by (rewrite length_arm_particles; lia).
    rewrite length_arm_particles.
    rewrite lookup_app_l by (rewrite length_arm_particles; lia).
    change (299 - 150)%nat with 149%nat. by apply arm_particles_lookup; lia.
  - unfold arm_particle, Particle.new. cbn [Particle.angle].
    pose proof (canonical_range (S (n + 300 + 2 * 149))) as Hu.
    pose proof PI2_3_2 as Hpi. change (IZR (Z.of_nat 149)) with 149.
    change (IZR 1) with 1. nra.
Qed.

Lemma new_particles_loose (w h : Z) (n : nat) :
  Forall particle_loose (Galaxy.particles_ (fst (Galaxy.new canonical w h n))).
Proof.
  destruct (new_spec w h n) as (-> & _). pose proof PI2_3_2 as Hpi.
  rewrite !Forall_app. split; [|split].
  - eapply Forall_impl; [apply arm_particles_ok; lia|].
    intros p (_ & Ha & Hv & _). split; lra.
  - eapply Forall_impl; [apply arm_particles_ok; lia|].
    intros p (_ & Ha & Hv & _). split; lra.
  - eapply Forall_impl; [apply core_particles_ok|].
    intros p (_ & Ha & Hv & _). split; lra.
Qed.

Lemma new_stars_wrapped (w h : Z) (n : nat) :
  Forall star_wrapped (Galaxy.stars_ (fst (Galaxy.new canonical w h n))).
Proof.
  destruct (new_spec w h n) as (_ & Hs & _).
  eapply Forall_impl; [exact Hs|].
  intros s (_ & _ & Hph & Hsp & _). split; lra.
Qed.

(** C3, as the code has it.  From the layout of the constructor, after
    any positive number of [update(dt)] with [0 <= dt <= 1] (the program
    uses 0.1), every particle angle and every star phase lies in the
    closed interval [0, 2 pi]: the test is the strict [angle > TWO_PI], so
    the value [2 pi] itself stays.  A particle angle is moved by one full
    turn down or up; a star phase is only moved down, there being no
    branch for a negative phase; the two rules agree whenever the advanced
    value is not negative. *)
Theorem angles_stay_wrapped (w h : Z) (n k : nat) (dt : R) :
  0 <= dt <= 1 ->
  let g := Nat.iter (S k) (Galaxy.update dt) (fst (Galaxy.new canonical w h n)) in
  Forall (fun p => 0 <= Particle.angle p <= 2 * PI) (Galaxy.particles_ g) /\
  Forall (fun s => 0 <= Star.phase s <= 2 * PI) (Galaxy.stars_ g) /\
  (forall (p : Particle.t) (d : R),
     let a := Particle.angle p + Particle.angular_velocity p * d in
     Particle.angle (Particle.update d p) = a \/
     Particle.angle (Particle.update d p) = a - 2 * PI \/
     Particle.angle (Particle.update d p) = a + 2 * PI) /\
  (forall (s : Star.t) (d : R),
     let a := Star.phase s + Star.speed s * d in
     Star.phase (Star.update d s) = a \/ Star.phase (Star.update d s) = a - 2 * PI) /\
  (forall (s : Star.t) (p : Particle.t) (d : R),
     Particle.angle p = Star.phase s -> Particle.angular_velocity p = Star.speed s ->
     0 <= Star.phase s + Star.speed s * d ->
     Star.phase (Star.update d s) = Particle.angle (Particle.update d p)).
Proof.
  intros Hdt. cbv zeta. split; [|split; [|split; [|split]]].
  - rewrite update_iter_particles. apply Forall_map.
    eapply Forall_impl; [apply new_particles_loose|].
    intros p Hp. by destruct (particle_iter_wrapped dt k p Hdt Hp).
  - rewrite update_iter_stars. apply Forall_map.
    eapply Forall_impl; [apply new_stars_wrapped|].
    intros s Hs. by destruct (star_iter_wrapped dt (S k) s Hdt Hs).
  - intros p d. destruct (particle_update_angle d p) as (-> & _).
    repeat case_decide; auto; lra.
  - intros s d. destruct (star_update_phase d s) as (-> & _).
    case_decide; auto.
  - intros s p d Hang Hav Hpos.
    destruct (star_update_phase d s) as (-> & _).
    destruct (particle_update_angle d p) as (-> & _).
    rewrite Hang, Hav. repeat case_decide; lra.
Qed.

End Layout.

Lemma layout_particle_bounds_witness :
  exists arms core,
    Galaxy.particles_ (fst (Galaxy.new (fun _ => 0.5) 120 35 0)) = arms ++ core /\
    List.length arms = 300%nat /\ List.length core = 60%nat /\
    Forall (fun p => 0 <= Particle.radius p /\
                     0 <= Particle.brightness p <= 1 /\
                     - 0.2 <= Particle.angle p < 3.5 * PI + 0.2) arms /\
    Forall (fun p => 0 <= Particle.radius p /\
                     0 <= Particle.brightness p <= 1 /\
                     0 <= Particle.angle p < 2 * PI) core.
Proof. apply (layout_particle_bounds (fun _ => 0.5)). intros _. lra. Defined.

(** C4 as stated fails for the angle: the last particle of the second arm
    (index 299) is created with an angle above [2 pi].  Over the reals its
    angle is [pi + (149/150) * 2.5 pi] plus a draw in [-0.2, 0.2); in
    binary64, with every draw at 0.5, the code stores 10.94. *)
Lemma arm_angle_exceeds_full_turn :
  (exists p,
     Galaxy.particles_ (fst (Galaxy.new (fun _ => 0.5) 120 35 0)) !! 299%nat = Some p /\
     2 * PI < Particle.angle p) /\
  (exists p,
     Galaxy.particles_ (fst (Galaxy.new (A:=Binary64) (fun _ => Num.lit 0.5) 120 35 0))
       !! 299%nat = Some p /\
     Num.gt (Particle.angle p) TWO_PI = true).
Proof.
  split.
  - apply (last_arm_particle_angle (fun _ => 0.5)). intros _. lra.
  - set (l := Galaxy.particles_ _).
    assert ((l !! 299%nat ≫= fun p : @Particle.t Binary64 =>
               Some (Num.gt (Arith:=Binary64) (Particle.angle p) TWO_PI))
            = Some true) as H by (vm_compute; reflexivity).
    destruct (l !! 299%nat) as [p|]; [|discriminate].
    exists p. split; [reflexivity|]. cbn [mbind option_bind] in H. by injection H.
Qed.

Lemma angles_stay_wrapped_witness :
  let g := Nat.iter 3 (Galaxy.update 0.1) (fst (Galaxy.new (fun _ => 0.5) 120 35 0)) in
  Forall (fun p => 0 <= Particle.angle p <= 2 * PI) (Galaxy.particles_ g) /\
  Forall (fun s => 0 <= Star.phase s <= 2 * PI) (Galaxy.stars_ g) /\
  (forall (p : Particle.t) (d : R),
     let a := Particle.angle p + Particle.angular_velocity p * d in
     Particle.angle (Particle.update d p) = a \/
     Particle.angle (Particle.update d p) = a - 2 * PI \/
     Particle.angle (Particle.update d p) = a + 2 * PI) /\
  (forall (s : Star.t) (d : R),
     let a := Star.phase s + Star.speed s * d in
     Star.phase (Star.update d s) = a \/ Star.phase (Star.update d s) = a - 2 * PI) /\
  (forall (s : Star.t) (p : Particle.t) (d : R),
     Particle.angle p = Star.phase s -> Particle.angular_velocity p = Star.speed s ->
     0 <= Star.phase s + Star.speed s * d ->
     Star.phase (Star.update d s) = Particle.angle (Particle.update d p)).
Proof.
  apply (angles_stay_wrapped (fun _ => 0.5) ltac:(intros n; cbv beta; lra) 120 35 0 2 0.1).
  lra.
Defined.

(** A stream of draws, all 0 but the two that particle 120 of the first arm
    consumes. *)
Definition cex_stream (n : nat) : R :=
  if (n =? 240)%nat then 15 / 68 else if (n =? 241)%nat then 137 / 280 else 0.

Lemma cex_stream_range (n : nat) : 0 <= cex_stream n < 1.
Proof. unfold cex_stream. repeat case_match; lra. Qed.

(** C3 as stated fails at the upper end of the interval.  With the draws
    of [cex_stream], particle 120 of the first arm is created with radius
    12.25 and angle [2 pi - 3/700], so its angular velocity is
    [0.15 / 3.5]; the first [update(0.1)] moves the angle to exactly
    [2 pi], where the strict test leaves it.  Nor is the star rule the
    particle rule: a phase driven below 0 stays there, while a particle
    angle gets a turn added. *)
Lemma angle_reaches_full_turn :
  (forall n, 0 <= cex_stream n < 1) /\
  (exists p,
     Galaxy.particles_ (Galaxy.update 0.1 (fst (Galaxy.new cex_stream 120 35 0)))
       !! 120%nat = Some p /\
     Particle.radius p = 12.25 /\ Particle.angle p = 2 * PI) /\
  Star.phase (Star.update 0.1 (Star.mk (Vec2.mk 0 0) 0 (-1) 1)) = - 0.1 /\
  Particle.angle (Particle.update 0.1 (Particle.new 1 0 (-1) 1)) = 2 * PI - 0.1.
Proof.
  pose proof PI2_3_2 as Hpi.
  split; [exact cex_stream_range|]. split; [|split].
  - destruct (new_spec cex_stream cex_stream_range 120 35 0) as (Hp & _).
    cbn [Galaxy.update Galaxy.particles_]. rewrite lookup_map, Hp.
    rewrite lookup_app_l by (rewrite length_arm_particles; lia).
    rewrite arm_particles_lookup by lia. cbn [fmap option_fmap option_map].
    eexists. split; [reflexivity|].
    destruct (particle_update_angle 0.1
      (arm_particle cex_stream (IZR 0 * PI) (Z.of_nat 120) (0 + 2 * 120)))
      as (-> & _ & -> & _).
    unfold arm_particle, Particle.new.
    cbn [Particle.angle Particle.angular_velocity Particle.radius].
    change (0 + 2 * 120)%nat with 240%nat.
    change (cex_stream 240) with (15 / 68).
    change (cex_stream (S 240)) with (137 / 280).
    change (IZR (Z.of_nat 120)) with 120.
    assert (2 + 120 / 150 * 14 + (15 / 68 * (1 - -1) + -1) * (0.5 + 120 / 150 * 1.5)
            = 3.5 * 3.5) as -> by lra.
    rewrite sqrt_square by lra.
    split; [lra|]. repeat case_decide; lra.
  - destruct (star_update_phase 0.1
      (Star.mk (A:=Real) (Vec2.mk (A:=Real) 0 0) 0 (-1) 1))
      as (-> & _).
    cbn [Star.phase Star.speed]. case_decide; lra.
  - destruct (particle_update_angle 0.1 (Particle.new (A:=Real) 1 0 (-1) 1))
      as (-> & _).
    unfold Particle.new. cbn [Particle.angle Particle.angular_velocity].
    repeat case_decide; lra.
Qed.

(** *** The whole of [render] *)

Lemma accumulate_particles_bounded (g : Galaxy.t) (h w : nat) (l : list Particle.t)
    (s : Galaxy.Intensity) (B : R) :
  Galaxy.height_ g = Z.of_nat h -> Galaxy.width_ g = Z.of_nat w ->
  grid_shape h w s ->
  (forall r c v, grid_get s r c = Some v -> 0 <= v <= B) ->
  Forall (fun p => is_Some (particle_cell g p) /\ 0 <= Particle.brightness p <= 1) l ->
  exists s', for_each (Galaxy.accumulate_particle g) l s = Some s' /\
    grid_shape h w s' /\
    forall r c v, grid_get s' r c = Some v -> 0 <= v <= B + INR (List.length l).
Proof.
  intros Hh Hw. revert s B. induction l as [|p l IH]; intros s B Hs Hcells Hl.
  - exists s. split; [done|]. split; [done|]. intros r c v Hv. simpl.
    specialize (Hcells r c v Hv). lra.
  - apply Forall_cons in Hl as [[[[px py] Hcell] Hb] Hl].
    pose proof (accumulate_particle_spec g h w p s Hh Hw Hs) as Hp.
    rewrite Hcell in Hp. destruct Hp as (s1 & Hrun & Hs1 & Hc1).
    destruct (IH s1 (B + 1) Hs1) as (s' & Hrun' & Hs' & Hc'); [|exact Hl|].
    + intros r c v Hv. rewrite Hc1 in Hv. real. case_decide.
      * destruct (grid_get (T:=R) s r c) as [v0|] eqn:Hv0; [|discriminate Hv].
        injection Hv as <-. specialize (Hcells r c v0 Hv0). real. lra.
      * specialize (Hcells r c v Hv). lra.
    + exists s'. cbn [for_each]. rewrite Hrun. split; [exact Hrun'|].
      split; [exact Hs'|]. intros r c v Hv. specialize (Hc' r c v Hv).
      cbn [List.length]. rewrite S_INR. lra.
Qed.

Lemma render_core_shape (g : Galaxy.t) (h w : nat) (screen : Galaxy.Screen) :
  Galaxy.height_ g = Z.of_nat h -> Galaxy.width_ g = Z.of_nat w ->
  grid_shape h w screen ->
  is_Some (Num.to_int (Vec2.x (Galaxy.center_ g))) ->
  is_Some (Num.to_int (Vec2.y (Galaxy.center_ g))) ->
  exists screen', Galaxy.render_core g screen = Some screen' /\ grid_shape h w screen'.
Proof.
  intros Hh Hw Hs [cx Hx] [cy Hy]. unfold Galaxy.render_core.
  rewrite Hx, Hy, Hh, Hw. cbn [mbind option_bind].
  destruct ((0 <? cx) && (cx <? Z.of_nat w - 1) && (0 <=? cy) && (cy <? Z.of_nat h))%Z
    eqn:Hguard; [|eauto].
  rewrite !andb_true_iff in Hguard.
  destruct (grid_set_is_Some screen cy cx "@"%char) as [s1 H1].
  { eapply grid_shape_get; eauto; lia. }
  pose proof (grid_set_shape _ _ _ _ _ _ _ H1 Hs) as Hs1.
  destruct (grid_set_is_Some s1 cy (cx - 1) "("%char) as [s2 H2].
  { eapply grid_shape_get; eauto; lia. }
  pose proof (grid_set_shape _ _ _ _ _ _ _ H2 Hs1) as Hs2.
  destruct (grid_set_is_Some s2 cy (cx + 1) ")"%char) as [s3 H3].
  { eapply grid_shape_get; eauto; lia. }
  rewrite H1. cbn [mbind option_bind]. rewrite H2. cbn [mbind option_bind].
  exists s3. split; [exact H3|]. by eapply grid_set_shape.
Qed.

(** The rows of the grid as text, each followed by a newline. *)
Definition lines (screen : Galaxy.Screen) : string :=
  foldr (fun row rest =>
           String.append (string_of_list_ascii row) (String newline rest))
        EmptyString screen.

Lemma append_assoc (a b c : string) :
  String.append (String.append a b) c = String.append a (String.append b c).
Proof. induction a as [|ch a IH]; simpl; [done | by rewrite IH]. Qed.

Lemma append_empty_r (a : string) : String.append a EmptyString = a.
Proof. induction a as [|ch a IH]; simpl; [done | by rewrite IH]. Qed.

Lemma frame_buffer (screen : Galaxy.Screen) (acc : string) :
  fold_left (fun buffer line =>
      String.append buffer (String.append (string_of_list_ascii line)
                                          (String newline EmptyString)))
    screen acc = String.append acc (lines screen).
Proof.
  revert acc. induction screen as [|row screen IH]; intros acc; simpl.
  - by rewrite append_empty_r.
  - rewrite IH, !append_assoc. reflexivity.
Qed.

(** The text of a frame: the rows, a blank line, and the status line with
    the seconds truncated. *)
Lemma frame_eq (screen : Galaxy.Screen) (t : R) :
  0 <= t < 2147483648 ->
  Galaxy.frame screen t =
    Some (String.append (lines screen)
            (String.append (String newline " Time: ")
               (String.append (show_int (Rtrunc t)) "s"))).
Proof.
  intros Ht. unfold Galaxy.frame.
  assert (Num.to_int t = Some (Rtrunc t)) as ->.
  { apply to_int_Some. split; [done | by apply Rtrunc_int_range]. }
  cbn [mbind option_bind]. by rewrite frame_buffer.
Qed.

(** Where no intensity exceeds the threshold the pass changes nothing. *)
Lemma apply_intensity_dark (g : Galaxy.t) (h w : nat)
    (screen : Galaxy.Screen) (intensity : Galaxy.Intensity) :
  Galaxy.height_ g = Z.of_nat h -> Galaxy.width_ g = Z.of_nat w ->
  grid_shape h w screen -> grid_shape h w intensity ->
  (forall r c i, grid_get intensity r c = Some i -> i <= 0.1) ->
  Galaxy.apply_intensity g screen intensity = Some screen.
Proof.
  intros Hh Hw Hs Hi Hdark.
  destruct (apply_intensity_spec g h w screen intensity Hh Hw Hs Hi)
    as (screen' & -> & Hs' & Hcells).
  { intros r c i Hgi Hgt. specialize (Hdark r c i Hgi). lra. }
  f_equal. apply (grid_ext h w); [done | done |].
  intros r c. destruct (grid_get screen r c) as [old|] eqn:Hold.
  - destruct (grid_get_shape h w screen r c old Hs Hold) as [Hr Hc].
    destruct (grid_shape_get h w intensity r c Hi Hr Hc) as [i Hgi].
    rewrite (Hcells r c i old Hgi Hold). unfold glyph_after.
    rewrite decide_False; [done|]. specialize (Hdark r c i Hgi). lra.
  - destruct (grid_get screen' r c) as [v|] eqn:Hv; [|done].
    destruct (grid_get_shape h w screen' r c v Hs' Hv) as [Hr Hc].
    destruct (grid_shape_get h w screen r c Hs Hr Hc) as [old Hold']. congruence.
Qed.

(** The passes of [render] all have a result, and the grid handed to
    [output] has the size of the galaxy, provided every position converts
    to [int], the brightnesses lie in [0, 1] and the particles are not so
    many that an accumulated intensity could leave the range of [int]. *)
Lemma render_screen_shape (g : Galaxy.t) (h w : nat) :
  Galaxy.height_ g = Z.of_nat h -> Galaxy.width_ g = Z.of_nat w ->
  Forall (fun s => is_Some (Num.to_int (Vec2.x (Star.pos s))) /\
                   is_Some (Num.to_int (Vec2.y (Star.pos s)))) (Galaxy.stars_ g) ->
  Forall (fun p => is_Some (particle_cell g p) /\ 0 <= Particle.brightness p <= 1)
         (Galaxy.particles_ g) ->
  (3 * Z.of_nat (List.length (Galaxy.particles_ g)) < 2147483648)%Z ->
  is_Some (Num.to_int (Vec2.x (Galaxy.center_ g))) ->
  is_Some (Num.to_int (Vec2.y (Galaxy.center_ g))) ->
  exists screen, Galaxy.render_screen g = Some screen /\ grid_shape h w screen.
Proof.
  intros Hh Hw Hstars Hparts Hcount Hcx Hcy. unfold Galaxy.render_screen.
  unfold Galaxy.blank_screen, Galaxy.zero_intensity. rewrite Hh, Hw.
  rewrite !(proj2 (Z.leb_le 0 _)) by lia. cbn [andb mbind option_bind].
  rewrite !Nat2Z.id.
  destruct (render_stars_shape g h w (replicate h (replicate w " "%char)) Hh Hw)
    as (s1 & -> & Hs1); [apply grid_shape_replicate | exact Hstars |].
  cbn [mbind option_bind].
  destruct (accumulate_particles_bounded g h w (Galaxy.particles_ g)
              (replicate h (replicate w (Num.lit 0))) 0 Hh Hw)
    as (i1 & Hacc & Hi1 & Hbound); [apply grid_shape_replicate | | exact Hparts |].
  { intros r c v Hv.
    destruct (grid_get_shape h w _ r c v (grid_shape_replicate h w _) Hv) as [Hr Hc].
    rewrite grid_get_replicate in Hv by done. injection Hv as <-. lits. lra. }
  unfold Galaxy.accumulate_particles. rewrite Hacc. cbn [mbind option_bind].
  destruct (apply_intensity_spec g h w s1 i1 Hh Hw Hs1 Hi1) as (s2 & -> & Hs2 & _).
  { intros r c i Hgi _. specialize (Hbound r c i Hgi).
    rewrite INR_IZR_INZ in Hbound. apply IZR_lt in Hcount.
    rewrite mult_IZR in Hcount. lra. }
  cbn [mbind option_bind]. by apply render_core_shape.
Qed.

(** The grid that [render] produces for a 10 x 6 galaxy with no particle
    and no star: blank but for the core. *)
Definition core_only_10_6 : Galaxy.Screen :=
  map list_ascii_of_string
    ["          "; "          "; "          ";
     "    (@)   "; "          "; "          "]%string.

Lemma render_screen_empty_10_6 :
  Galaxy.render_screen (Galaxy.empty 10 6) = Some core_only_10_6.
Proof.
  unfold Galaxy.render_screen.
  change (Galaxy.blank_screen (Galaxy.empty 10 6))
    with (Some (replicate 6 (replicate 10 " "%char))).
  change (Galaxy.zero_intensity (Galaxy.empty 10 6))
    with (Some (replicate 6 (replicate 10 (Num.lit (Arith:=Real) 0)))).
  cbn [mbind option_bind].
  change (Galaxy.render_stars (Galaxy.empty 10 6) (replicate 6 (replicate 10 " "%char)))
    with (Some (replicate 6 (replicate 10 " "%char))).
  change (Galaxy.accumulate_particles (Galaxy.empty 10 6)
            (replicate 6 (replicate 10 (Num.lit (Arith:=Real) 0))))
    with (Some (replicate 6 (replicate 10 (Num.lit (Arith:=Real) 0)))).
  cbn [mbind option_bind].
  rewrite (apply_intensity_dark (Galaxy.empty 10 6) 6 10);
    [| reflexivity | reflexivity | apply grid_shape_replicate
     | apply grid_shape_replicate |].
  - cbn [mbind option_bind].
    rewrite (render_core_eq (Galaxy.empty 10 6) 6 10);
      [reflexivity | reflexivity | reflexivity | simpl; lia | simpl; lia |].
    apply (empty_center 10 6).
  - intros r c i Hi.
    destruct (grid_get_shape 6 10 _ r c i (grid_shape_replicate 6 10 _) Hi) as [Hr Hc].
    rewrite grid_get_replicate in Hi by done. injection Hi as <-. lits. lra.
Qed.

(** C5, as the code has it.  When the passes have a result (every position
    converts to [int], brightnesses lie in [0, 1]) the grid handed to
    [output] has [height] rows of [width] glyphs, and the buffer is these
    rows, each followed by a newline, then an empty line and the line
    [ Time: <n>s], [n] being the elapsed seconds truncated toward zero;
    [output] sends the cursor-home sequence and then the buffer to [cout].
    Elapsed time 7.9 shows as [Time: 7s].  A 10 x 6 galaxy with no particle
    and no star renders as six lines of ten characters, all spaces except
    the core glyphs [(@)] in the fourth line, and that footer. *)
Theorem render_frame_format (g : Galaxy.t) (h w : nat) (t : R) (cout : string) :
  Galaxy.height_ g = Z.of_nat h -> Galaxy.width_ g = Z.of_nat w ->
  Forall (fun s => is_Some (Num.to_int (Vec2.x (Star.pos s))) /\
                   is_Some (Num.to_int (Vec2.y (Star.pos s)))) (Galaxy.stars_ g) ->
  Forall (fun p => is_Some (particle_cell g p) /\ 0 <= Particle.brightness p <= 1)
         (Galaxy.particles_ g) ->
  (3 * Z.of_nat (List.length (Galaxy.particles_ g)) < 2147483648)%Z ->
  is_Some (Num.to_int (Vec2.x (Galaxy.center_ g))) ->
  is_Some (Num.to_int (Vec2.y (Galaxy.center_ g))) ->
  0 <= t < 2147483648 ->
  (exists screen,
     Galaxy.render_screen g = Some screen /\
     List.length screen = h /\ Forall (fun row => List.length row = w) screen /\
     Galaxy.frame screen t =
       Some (String.append (lines screen)
               (String.append (String newline " Time: ")
                  (String.append (show_int (Rtrunc t)) "s"))) /\
     Galaxy.render g t cout =
       Some (String.append (String.append cout move_cursor_home)
               (String.append (lines screen)
                  (String.append (String newline " Time: ")
                     (String.append (show_int (Rtrunc t)) "s"))))) /\
  Rtrunc 7.9 = 7%Z /\
  Galaxy.render (Galaxy.empty 10 6) 7.9 EmptyString =
    Some (String.append move_cursor_home
"          
          
          
    (@)   
          
          

 Time: 7s").
Proof.
  intros Hh Hw Hstars Hparts Hcount Hcx Hcy Ht.
  assert (Rtrunc 7.9 = 7%Z) as H79 by (apply Rtrunc_eq_nonneg; [lia | lra]).
  split; [|split; [exact H79|]].
  - destruct (render_screen_shape g h w Hh Hw Hstars Hparts Hcount Hcx Hcy)
      as (screen & Hrun & Hlen & Hrows).
    exists screen. split; [exact Hrun|]. split; [exact Hlen|]. split; [exact Hrows|].
    split; [by apply frame_eq|].
    unfold Galaxy.render, Galaxy.output. rewrite Hrun. cbn [mbind option_bind].
    rewrite frame_eq by done. reflexivity.
  - unfold Galaxy.render, Galaxy.output. rewrite render_screen_empty_10_6.
    cbn [mbind option_bind]. rewrite frame_eq by lra. rewrite H79. reflexivity.
Qed.

Lemma render_frame_format_witness :
  (exists screen,
     Galaxy.render_screen (Galaxy.empty 10 6) = Some screen /\
     List.length screen = 6%nat /\ Forall (fun row => List.length row = 10%nat) screen /\
     Galaxy.frame screen 7.9 =
       Some (String.append (lines screen)
               (String.append (String newline " Time: ")
                  (String.append (show_int (Rtrunc 7.9)) "s"))) /\
     Galaxy.render (Galaxy.empty 10 6) 7.9 EmptyString =
       Some (String.append (String.append EmptyString move_cursor_home)
               (String.append (lines screen)
                  (String.append (String newline " Time: ")
                     (String.append (show_int (Rtrunc 7.9)) "s"))))) /\
  Rtrunc 7.9 = 7%Z /\
  Galaxy.render (Galaxy.empty 10 6) 7.9 EmptyString =
    Some (String.append move_cursor_home
"          
          
          
    (@)   
          
          

 Time: 7s").
Proof.
  apply (render_frame_format (Galaxy.empty 10 6) 6 10 7.9 EmptyString).
  - reflexivity.
  - reflexivity.
  - constructor.
  - constructor.
  - simpl. lia.
  - exists 5%Z. exact (to_int_half 10 eq_refl).
  - exists 3%Z. exact (to_int_half 6 eq_refl).
  - lra.
Defined.

(** C5 as stated fails in its example: with no particle and no star the
    10 x 6 grid is not six lines of spaces, because [render] always runs the
    core pass, which puts [(@)] at columns 4 to 6 of row 3.  The same
    frame comes out in binary64. *)
Lemma blank_galaxy_shows_core :
  Galaxy.render_screen (Galaxy.empty 10 6) = Some core_only_10_6 /\
  grid_get core_only_10_6 3 5 = Some "@"%char /\
  core_only_10_6 <> replicate 6 (replicate 10 " "%char) /\
  Galaxy.render (A:=Binary64) (Galaxy.empty 10 6) (Num.lit 7.9) EmptyString =
    Some (String.append move_cursor_home
"          
          
          
    (@)   
          
          

 Time: 7s").
Proof.
  split; [exact render_screen_empty_10_6|]. split; [reflexivity|].
  split; [discriminate|]. vm_compute. reflexivity.
Qed.

End RealModel.

(** ** Properties that hold in any arithmetic

    The statements of this part do not depend on how [double] computes:
    they hold for the real numbers and for binary64 alike. *)

Section Generic.
Context {A : Num.Arith}.
Local Open Scope num_scope.

(** What a loop keeps when each step that has a result keeps it. *)
Lemma for_each_pres {S T : Type} (Inv : S -> Prop) (body : T -> S -> option S)
    (l : list T) (s s' : S) :
  (forall a s1 s2, Inv s1 -> body a s1 = Some s2 -> Inv s2) ->
  Inv s -> for_each body l s = Some s' -> Inv s'.
Proof.
  intros Hstep. revert s. induction l as [|a l IH]; intros s Hs Hrun; simpl in Hrun.
  - by injection Hrun as <-.
  - destruct (body a s) as [s1|] eqn:Hb; [|discriminate]. eauto.
Qed.

Lemma for_loop_opt_pres {S : Type} (Inv : S -> Prop) (n : nat) (i : Z)
    (body : Z -> S -> option S) (s s' : S) :
  (forall j s1 s2, Inv s1 -> body j s1 = Some s2 -> Inv s2) ->
  Inv s -> for_loop_opt n i body s = Some s' -> Inv s'.
Proof.
  intros Hstep. revert i s. induction n as [|n IH]; intros i s Hs Hrun; simpl in Hrun.
  - by injection Hrun as <-.
  - destruct (body i s) as [s1|] eqn:Hb; [|discriminate]. eauto.
Qed.

(** The twelve characters a frame is drawn with. *)
Definition glyphs : list ascii := list_ascii_of_string " .:-=+*#%@()".

(** A grid of [h] rows of [w] cells that all satisfy [P]. *)
Definition grid_of (P : ascii -> Prop) (h w : nat) (g : Galaxy.Screen) : Prop :=
  grid_shape h w g /\ forall r c v, grid_get g r c = Some v -> P v.

Lemma grid_set_of (P : ascii -> Prop) (h w : nat) (g g' : Galaxy.Screen)
    (row col : Z) (v : ascii) :
  P v -> grid_of P h w g -> grid_set g row col v = Some g' -> grid_of P h w g'.
Proof.
  intros Hv [Hs Hall] Hset. split; [by eapply grid_set_shape|].
  intros r c v'. rewrite (grid_get_set _ _ _ _ _ r c Hset).
  case_decide; [by intros [= <-] | apply Hall].
Qed.

Lemma render_star_of (P : ascii -> Prop) (h w : nat) (g : Galaxy.t) (s : Star.t)
    (screen screen' : Galaxy.Screen) :
  P "*"%char -> P "+"%char -> P "."%char ->
  grid_of P h w screen -> Galaxy.render_star g s screen = Some screen' ->
  grid_of P h w screen'.
Proof.
  intros H1 H2 H3 Hinv. unfold Galaxy.render_star.
  destruct (Num.to_int (Vec2.x (Star.pos s))) as [sx|]; [|discriminate].
  destruct (Num.to_int (Vec2.y (Star.pos s))) as [sy|]; [|discriminate].
  cbn [mbind option_bind].
  repeat case_match; try (intros [= <-]; exact Hinv); by apply grid_set_of.
Qed.

Lemma apply_intensity_cell_of (P : ascii -> Prop) (h w : nat)
    (intensity : Galaxy.Intensity) (y x : Z) (screen screen' : Galaxy.Screen) :
  Forall P GRADIENT ->
  grid_of P h w screen -> Galaxy.apply_intensity_cell intensity y x screen = Some screen' ->
  grid_of P h w screen'.
Proof.
  intros HG Hinv. unfold Galaxy.apply_intensity_cell.
  destruct (grid_get intensity y x) as [i|]; [|discriminate]. cbn [mbind option_bind].
  destruct (i >? #0.1); [|by intros [= <-]].
  destruct (Galaxy.gradient_index i) as [idx|]; [|discriminate]. cbn [mbind option_bind].
  destruct (GRADIENT !! Z.to_nat idx) as [ch|] eqn:Hch; [|discriminate].
  cbn [mbind option_bind]. apply grid_set_of; [|done].
  eapply (proj1 (Forall_lookup _ _) HG); eauto.
Qed.

Lemma render_core_of (P : ascii -> Prop) (h w : nat) (g : Galaxy.t)
    (screen screen' : Galaxy.Screen) :
  P "@"%char -> P "("%char -> P ")"%char ->
  grid_of P h w screen -> Galaxy.render_core g screen = Some screen' ->
  grid_of P h w screen'.
Proof.
  intros H1 H2 H3 Hinv. unfold Galaxy.render_core.
  destruct (Num.to_int (Vec2.x (Galaxy.center_ g))) as [cx|]; [|discriminate].
  destruct (Num.to_int (Vec2.y (Galaxy.center_ g))) as [cy|]; [|discriminate].
  cbn [mbind option_bind]. case_match; [|by intros [= <-]].
  destruct (grid_set screen cy cx "@"%char) as [s1|] eqn:E1; [|discriminate].
  cbn [mbind option_bind].
  destruct (grid_set s1 cy (cx - 1) "("%char) as [s2|] eqn:E2; [|discriminate].
  cbn [mbind option_bind]. intros E3.
  eapply grid_set_of; [exact H3 | | exact E3].
  eapply grid_set_of; [exact H2 | | exact E2].
  eapply grid_set_of; [exact H1 | | exact E1]. exact Hinv.
Qed.

Lemma grid_of_Forall (P : ascii -> Prop) (h w : nat) (g : Galaxy.Screen) :
  grid_of P h w g ->
  List.length g = h /\ Forall (fun row => List.length row = w /\ Forall P row) g.
Proof.
  intros [[Hlen Hrows] Hall]. split; [exact Hlen|].
  apply Forall_lookup. intros i row Hi. split.
  - eapply (proj1 (Forall_lookup _ _) Hrows); eauto.
  - apply Forall_lookup. intros j v Hj.
    apply (Hall (Z.of_nat i) (Z.of_nat j)). apply grid_get_Some.
    split; [lia|]. split; [lia|]. exists row. by rewrite !Nat2Z.id.
Qed.

Lemma blank_screen_of (P : ascii -> Prop) (g : Galaxy.t) (screen : Galaxy.Screen) :
  P " "%char -> Galaxy.blank_screen g = Some screen ->
  (0 <= Galaxy.width_ g)%Z /\ (0 <= Galaxy.height_ g)%Z /\
  grid_of P (Z.to_nat (Galaxy.height_ g)) (Z.to_nat (Galaxy.width_ g)) screen.
Proof.
  intros HP. unfold Galaxy.blank_screen.
  destruct ((0 <=? Galaxy.width_ g) && (0 <=? Galaxy.height_ g))%Z eqn:Hg; [|discriminate].
  intros [= <-]. apply andb_true_iff in Hg as [Hw Hh].
  split; [lia|]. split; [lia|]. split; [apply grid_shape_replicate|].
  intros r c v (_ & _ & row & Hrow & Hv)%grid_get_Some.
  apply lookup_replicate in Hrow as [-> _]. by apply lookup_replicate in Hv as [-> _].
Qed.

(** X1.  Whenever the passes of [render] have a result, in any arithmetic,
    the grid handed to [output] has exactly [height_] rows of [width_]
    glyphs each, both sizes being non-negative, and every glyph is one of
    the twelve characters [ .:-=+*#%@()]. *)
Theorem render_screen_glyphs (g : Galaxy.t) (screen : Galaxy.Screen) :
  Galaxy.render_screen g = Some screen ->
  (0 <= Galaxy.width_ g)%Z /\ (0 <= Galaxy.height_ g)%Z /\
  List.length screen = Z.to_nat (Galaxy.height_ g) /\
  Forall (fun row => List.length row = Z.to_nat (Galaxy.width_ g) /\
                     Forall (fun c => In c glyphs) row) screen.
Proof.
  set (P := fun c => In c glyphs).
  assert (Forall P GRADIENT) as HG.
  { apply Forall_forall. intros c Hc%list_elem_of_In. revert Hc.
    unfold P, glyphs, GRADIENT. simpl. tauto. }
  assert (P " "%char /\ P "*"%char /\ P "+"%char /\ P "."%char /\
          P "@"%char /\ P "("%char /\ P ")"%char) as (Hsp & Hst & Hpl & Hdt & Hat & Hl & Hr).
  { unfold P, glyphs. simpl. tauto. }
  unfold Galaxy.render_screen.
  destruct (Galaxy.blank_screen g) as [s0|] eqn:E0; [|discriminate].
  cbn [mbind option_bind].
  destruct (Galaxy.zero_intensity g) as [i0|]; [|discriminate]. cbn [mbind option_bind].
  destruct (Galaxy.render_stars g s0) as [s1|] eqn:E1; [|discriminate].
  cbn [mbind option_bind].
  destruct (Galaxy.accumulate_particles g i0) as [i1|]; [|discriminate].
  cbn [mbind option_bind].
  destruct (Galaxy.apply_intensity g s1 i1) as [s2|] eqn:E2; [|discriminate].
  cbn [mbind option_bind]. intros E3.
  destruct (blank_screen_of P g s0 Hsp E0) as (Hw & Hh & H0).
  split; [exact Hw|]. split; [exact Hh|]. apply (grid_of_Forall P).
  eapply render_core_of; [exact Hat | exact Hl | exact Hr | | exact E3].
  unfold Galaxy.apply_intensity, for_range_opt in E2.
  eapply (for_loop_opt_pres (grid_of P _ _)); [| |exact E2].
  - intros y sa sb Ha Hrun.
    eapply (for_loop_opt_pres (grid_of P _ _)); [| exact Ha | exact Hrun].
    intros x sc sd Hc. by apply apply_intensity_cell_of.
  - unfold Galaxy.render_stars in E1.
    eapply (for_each_pres (grid_of P _ _)); [| exact H0 | exact E1].
    intros s sa sb Ha. by apply render_star_of.
Qed.

(** *** The accumulation pass, cell by cell *)

(** The cell a particle is projected to, when both casts are defined. *)
Definition cell_of (g : Galaxy.t) (p : Particle.t) : option (Z * Z) :=
  let pos := Particle.get_position p (Galaxy.center_ g) (Galaxy.aspect_ratio_ g) in
  px ← Num.to_int (Vec2.x pos);
  py ← Num.to_int (Vec2.y pos);
  Some (px, py).

(** Whether a particle lands on the cell at row [r], column [c] of the grid. *)
Definition lands_on (g : Galaxy.t) (r c : Z) (p : Particle.t) : bool :=
  match cell_of g p with
  | Some (px, py) => Galaxy.in_bounds g px py && (py =? r)%Z && (px =? c)%Z
  | None => false
  end.

Lemma accumulate_particle_cells (g : Galaxy.t) (p : Particle.t)
    (s s' : Galaxy.Intensity) :
  Galaxy.accumulate_particle g p s = Some s' ->
  forall r c, grid_get s' r c =
    if lands_on g r c p then (fun v => v + Particle.brightness p) <$> grid_get s r c
    else grid_get s r c.
Proof.
  unfold Galaxy.accumulate_particle, lands_on, cell_of.
  destruct (Num.to_int (Vec2.x _)) as [px|]; [|discriminate]. cbn [mbind option_bind].
  destruct (Num.to_int (Vec2.y _)) as [py|]; [|discriminate]. cbn [mbind option_bind].
  destruct (Galaxy.in_bounds g px py); [|by intros [= <-]].
  destruct (grid_get s py px) as [old|] eqn:Hold; [|discriminate].
  cbn [mbind option_bind andb]. intros Hset r c.
  rewrite (grid_get_set _ _ _ _ _ r c Hset).
  destruct (decide (r = py /\ c = px)) as [[-> ->]|Hne].
  - rewrite !Z.eqb_refl, Hold. reflexivity.
  - destruct (py =? r)%Z eqn:E1; [|done]. destruct (px =? c)%Z eqn:E2; [|done].
    apply Z.eqb_eq in E1, E2. exfalso. apply Hne. by split.
Qed.

(** X2.  When the accumulation pass has a result, every cell of the grid
    holds its former value plus the brightnesses of the particles that land
    on it, added one after the other in the order of the collection; a
    particle projected outside the grid adds nothing anywhere.  This holds
    in any arithmetic, binary64 included. *)
Theorem accumulate_in_collection_order (g : Galaxy.t)
    (intensity intensity' : Galaxy.Intensity) :
  Galaxy.accumulate_particles g intensity = Some intensity' ->
  forall r c, grid_get intensity' r c =
    (fun v => fold_left Num.add
       (map Particle.brightness (List.filter (lands_on g r c) (Galaxy.particles_ g))) v)
    <$> grid_get intensity r c.
Proof.
  unfold Galaxy.accumulate_particles. generalize (Galaxy.particles_ g) as l.
  intros l. revert intensity.
  induction l as [|p l IH]; intros s Hrun r c; simpl in Hrun.
  - injection Hrun as <-. simpl. by destruct (grid_get s r c).
  - destruct (Galaxy.accumulate_particle g p s) as [s1|] eqn:Hstep; [|discriminate].
    rewrite (IH s1 Hrun r c), (accumulate_particle_cells g p s s1 Hstep r c).
    cbn [List.filter]. destruct (lands_on g r c p); [|reflexivity].
    destruct (grid_get s r c); reflexivity.
Qed.

(** *** The population built by the constructor *)

Section Population.
Variable canonical : nat -> Num.num.

(** [st'] has [dp] particles, [ds] stars and [dr] draws more than [st], and
    the same size, centre, aspect ratio and time. *)
Definition grows (dp ds dr : nat) (st st' : Galaxy.t * nat) : Prop :=
  List.length (Galaxy.particles_ (fst st')) = (List.length (Galaxy.particles_ (fst st)) + dp)%nat /\
  List.length (Galaxy.stars_ (fst st')) = (List.length (Galaxy.stars_ (fst st)) + ds)%nat /\
  snd st' = (snd st + dr)%nat /\
  Galaxy.center_ (fst st') = Galaxy.center_ (fst st) /\
  Galaxy.width_ (fst st') = Galaxy.width_ (fst st) /\
  Galaxy.height_ (fst st') = Galaxy.height_ (fst st) /\
  Galaxy.time_ (fst st') = Galaxy.time_ (fst st) /\
  Galaxy.aspect_ratio_ (fst st') = Galaxy.aspect_ratio_ (fst st).

Lemma grows_refl (st : Galaxy.t * nat) : grows 0 0 0 st st.
Proof. unfold grows. repeat split; lia. Qed.

Lemma grows_trans (dp ds dr dp' ds' dr' : nat) (st1 st2 st3 : Galaxy.t * nat) :
  grows dp ds dr st1 st2 -> grows dp' ds' dr' st2 st3 ->
  grows (dp + dp') (ds + ds') (dr + dr') st1 st3.
Proof.
  intros (H1 & H2 & H3 & H4 & H5 & H6 & H7 & H8) (K1 & K2 & K3 & K4 & K5 & K6 & K7 & K8).
  unfold grows. rewrite K1, K2, K3, K4, K5, K6, K7, K8, H1, H2, H3.
  repeat split; try assumption; lia.
Qed.

Lemma for_loop_grows (dp ds dr : nat) (body : Z -> Galaxy.t * nat -> Galaxy.t * nat) :
  (forall i st, grows dp ds dr st (body i st)) ->
  forall (n : nat) (i : Z) (st : Galaxy.t * nat),
    grows (n * dp) (n * ds) (n * dr) st (for_loop n i body st).
Proof.
  intros Hbody n. induction n as [|n IH]; intros i st.
  - apply grows_refl.
  - cbn [for_loop]. change (S n) with (1 + n)%nat.
    rewrite !Nat.mul_add_distr_r, !Nat.mul_1_l.
    eapply grows_trans; [apply Hbody | apply IH].
Qed.

Lemma init_arm_particle_grows (arm_offset : Num.num) (i : Z) (st : Galaxy.t * nat) :
  grows 1 0 2 st (Galaxy.init_arm_particle canonical arm_offset i st).
Proof.
  destruct st as [g n]. unfold Galaxy.init_arm_particle, random_double, grows.
  cbn [fst snd Galaxy.emplace_particle Galaxy.particles_ Galaxy.stars_ Galaxy.center_
       Galaxy.width_ Galaxy.height_ Galaxy.time_ Galaxy.aspect_ratio_].
  rewrite length_app. cbn [List.length]. repeat split; lia.
Qed.

Lemma init_core_particle_grows (i : Z) (st : Galaxy.t * nat) :
  grows 1 0 3 st (Galaxy.init_core_particle canonical i st).
Proof.
  destruct st as [g n]. unfold Galaxy.init_core_particle, random_double, grows.
  cbn [fst snd Galaxy.emplace_particle Galaxy.particles_ Galaxy.stars_ Galaxy.center_
       Galaxy.width_ Galaxy.height_ Galaxy.time_ Galaxy.aspect_ratio_].
  rewrite length_app. cbn [List.length]. repeat split; lia.
Qed.

Lemma init_background_star_grows (i : Z) (st : Galaxy.t * nat) :
  grows 0 1 5 st (Galaxy.init_background_star canonical i st).
Proof.
  destruct st as [g n]. unfold Galaxy.init_background_star, random_double, grows.
  cbn [fst snd Galaxy.push_star Galaxy.particles_ Galaxy.stars_ Galaxy.center_
       Galaxy.width_ Galaxy.height_ Galaxy.time_ Galaxy.aspect_ratio_].
  rewrite length_app. cbn [List.length]. repeat split; lia.
Qed.

(** The constructor as a whole: 360 particles, 80 stars and 1180 draws
    more than the empty object it starts from. *)
Lemma new_grows (w h : Z) (rng : nat) :
  grows 360 80 1180 (Galaxy.empty w h, rng) (Galaxy.new canonical w h rng).
Proof.
  set (st0 := (Galaxy.empty w h, rng)).
  assert (grows 300 0 600 st0 (Galaxy.init_spiral_arms canonical st0)) as Harms.
  { refine (for_loop_grows 150 0 300 _ _ 2 0%Z st0). intros arm st.
    refine (for_loop_grows 1 0 2 _ _ 150 0%Z st). intros i st'.
    apply init_arm_particle_grows. }
  set (st1 := Galaxy.init_spiral_arms canonical st0) in *.
  assert (grows 60 0 180 st1 (Galaxy.init_core canonical st1)) as Hcore.
  { refine (for_loop_grows 1 0 3 _ _ 60 0%Z st1). intros i st.
    apply init_core_particle_grows. }
  set (st2 := Galaxy.init_core canonical st1) in *.
  assert (grows 0 80 400 st2 (Galaxy.init_background_stars canonical st2)) as Hstars.
  { refine (for_loop_grows 0 1 5 _ _ 80 0%Z st2). intros i st.
    apply init_background_star_grows. }
  exact (grows_trans _ _ _ _ _ _ _ _ _ (grows_trans _ _ _ _ _ _ _ _ _ Harms Hcore) Hstars).
Qed.

(** X3.  The constructor, in any arithmetic and for any state of the random
    engine: it builds exactly 360 particles (two arms of 150, then 60 core
    particles) and 80 stars, makes exactly 1180 draws (two per arm
    particle, three per core particle, five per star), and leaves the size
    it was given, the centre at [(w / 2.0, h / 2.0)], time 0 and aspect
    ratio 2.0. *)
Theorem new_population (w h : Z) (rng : nat) :
  let g := fst (Galaxy.new canonical w h rng) in
  List.length (Galaxy.particles_ g) = 360%nat /\
  List.length (Galaxy.stars_ g) = 80%nat /\
  snd (Galaxy.new canonical w h rng) = (rng + 1180)%nat /\
  Galaxy.width_ g = w /\ Galaxy.height_ g = h /\
  Galaxy.center_ g = Vec2.mk (Num.of_int w / #2) (Num.of_int h / #2) /\
  Galaxy.time_ g = #0 /\ Galaxy.aspect_ratio_ g = #2.
Proof.
  destruct (new_grows w h rng) as (H1 & H2 & H3 & H4 & H5 & H6 & H7 & H8).
  cbn [fst snd] in *. cbv zeta. rewrite H1, H2, H3, H4, H5, H6, H7, H8. repeat split.
Qed.

End Population.

(** *** What [update] keeps *)

Lemma Forall2_map_self {T U : Type} (R : T -> U -> Prop) (f : T -> U) (l : list T) :
  (forall x, R x (f x)) -> Forall2 R l (map f l).
Proof. intros H. induction l; simpl; constructor; auto. Qed.

Lemma iter_update_particles (dt : Num.num) (k : nat) (g : Galaxy.t) :
  Galaxy.particles_ (Nat.iter k (Galaxy.update dt) g) =
    map (Nat.iter k (Particle.update dt)) (Galaxy.particles_ g).
Proof.
  induction k as [|k IH]; simpl; [by rewrite map_id|].
  rewrite IH, map_map. reflexivity.
Qed.

Lemma iter_update_stars (dt : Num.num) (k : nat) (g : Galaxy.t) :
  Galaxy.stars_ (Nat.iter k (Galaxy.update dt) g) =
    map (Nat.iter k (Star.update dt)) (Galaxy.stars_ g).
Proof.
  induction k as [|k IH]; simpl; [by rewrite map_id|].
  rewrite IH, map_map. reflexivity.
Qed.

Lemma iter_update_fields (dt : Num.num) (k : nat) (g : Galaxy.t) :
  let g' := Nat.iter k (Galaxy.update dt) g in
  Galaxy.center_ g' = Galaxy.center_ g /\ Galaxy.width_ g' = Galaxy.width_ g /\
  Galaxy.height_ g' = Galaxy.height_ g /\
  Galaxy.aspect_ratio_ g' = Galaxy.aspect_ratio_ g /\
  Galaxy.time_ g' = Nat.iter k (fun t => t + dt) (Galaxy.time_ g).
Proof.
  induction k as [|k IH]; simpl; [done|].
  destruct IH as (-> & -> & -> & -> & ->). done.
Qed.

Lemma iter_particle_fields (dt : Num.num) (k : nat) (p : Particle.t) :
  let p' := Nat.iter k (Particle.update dt) p in
  Particle.radius p' = Particle.radius p /\
  Particle.angular_velocity p' = Particle.angular_velocity p /\
  Particle.brightness p' = Particle.brightness p /\
  Particle.pos p' = Particle.pos p.
Proof.
  induction k as [|k IH]; simpl; [done|]. destruct IH as (<- & <- & <- & <-). done.
Qed.

Lemma iter_star_fields (dt : Num.num) (k : nat) (s : Star.t) :
  let s' := Nat.iter k (Star.update dt) s in
  Star.pos s' = Star.pos s /\ Star.speed s' = Star.speed s /\
  Star.base_brightness s' = Star.base_brightness s.
Proof.
  induction k as [|k IH]; simpl; [done|]. destruct IH as (<- & <- & <-). done.
Qed.

(** X4.  Any number of calls of [update], with any [dt] and in any
    arithmetic, changes nothing but angles, phases and the clock: the
    particles and the stars stay as many and in the same order, each
    particle keeps its radius, angular velocity, brightness and [pos], each
    star its position, speed and base brightness, and the galaxy keeps its
    centre, size and aspect ratio; [time_] has had [dt] added once per
    call. *)
Theorem update_changes_only_angles (dt : Num.num) (k : nat) (g : Galaxy.t) :
  let g' := Nat.iter k (Galaxy.update dt) g in
  Forall2 (fun p p' =>
             Particle.radius p' = Particle.radius p /\
             Particle.angular_velocity p' = Particle.angular_velocity p /\
             Particle.brightness p' = Particle.brightness p /\
             Particle.pos p' = Particle.pos p)
          (Galaxy.particles_ g) (Galaxy.particles_ g') /\
  Forall2 (fun s s' =>
             Star.pos s' = Star.pos s /\ Star.speed s' = Star.speed s /\
             Star.base_brightness s' = Star.base_brightness s)
          (Galaxy.stars_ g) (Galaxy.stars_ g') /\
  Galaxy.center_ g' = Galaxy.center_ g /\ Galaxy.width_ g' = Galaxy.width_ g /\
  Galaxy.height_ g' = Galaxy.height_ g /\
  Galaxy.aspect_ratio_ g' = Galaxy.aspect_ratio_ g /\
  Galaxy.time_ g' = Nat.iter k (fun t => t + dt) (Galaxy.time_ g).
Proof.
  cbv zeta. rewrite iter_update_particles, iter_update_stars.
  split; [apply Forall2_map_self; intros p; apply iter_particle_fields|].
  split; [apply Forall2_map_self; intros s; apply iter_star_fields|].
  apply iter_update_fields.
Qed.

(** *** The star pass *)

(** The glyph a star shows at its brightness, if any. *)
Definition star_glyph (b : Num.num) : option ascii :=
  if b >? #0.7 then Some "*"%char
  else if b >? #0.4 then Some "+"%char
  else if b >? #0.2 then Some "."%char
  else None.

(** The cell a star sits on, when both casts are defined and the cell is on
    the grid. *)
Definition star_cell (g : Galaxy.t) (s : Star.t) : option (Z * Z) :=
  match Num.to_int (Vec2.x (Star.pos s)), Num.to_int (Vec2.y (Star.pos s)) with
  | Some sx, Some sy => if Galaxy.in_bounds g sx sy then Some (sx, sy) else None
  | _, _ => None
  end.

Lemma render_star_cells (g : Galaxy.t) (s : Star.t) (screen screen' : Galaxy.Screen) :
  Galaxy.render_star g s screen = Some screen' ->
  forall r c, grid_get screen' r c =
    match star_cell g s, star_glyph (Star.get_brightness s) with
    | Some (sx, sy), Some ch =>
        if decide (r = sy /\ c = sx) then Some ch else grid_get screen r c
    | _, _ => grid_get screen r c
    end.
Proof.
  unfold Galaxy.render_star, star_cell, star_glyph.
  destruct (Num.to_int (Vec2.x (Star.pos s))) as [sx|]; [|discriminate].
  destruct (Num.to_int (Vec2.y (Star.pos s))) as [sy|]; [|discriminate].
  cbn [mbind option_bind].
  destruct (Galaxy.in_bounds g sx sy); [|by intros [= <-]].
  destruct (_ >? #0.7); [intros Hset r c; apply (grid_get_set _ _ _ _ _ r c Hset)|].
  destruct (_ >? #0.4); [intros Hset r c; apply (grid_get_set _ _ _ _ _ r c Hset)|].
  destruct (_ >? #0.2); [intros Hset r c; apply (grid_get_set _ _ _ _ _ r c Hset)|].
  by intros [= <-].
Qed.

Lemma for_each_snoc {S T : Type} (body : T -> S -> option S) (l : list T) (a : T)
    (s : S) :
  for_each body (l ++ [a]) s = for_each body l s ≫= body a.
Proof.
  revert s. induction l as [|b l IH]; intros s; simpl.
  - by destruct (body a s).
  - destruct (body b s) as [s1|]; [apply IH | reflexivity].
Qed.

(** Whether a star draws a glyph on the cell at row [r], column [c]. *)
Definition draws_on (g : Galaxy.t) (r c : Z) (s : Star.t) : bool :=
  match star_cell g s, star_glyph (Star.get_brightness s) with
  | Some (sx, sy), Some _ => (sy =? r)%Z && (sx =? c)%Z
  | _, _ => false
  end.

(** X5.  The star pass, in any arithmetic: a cell on which no star draws
    keeps its content, and a cell on which stars draw shows the glyph of the
    last of them in the collection ('*' above brightness 0.7, '+' above
    0.4, '.' above 0.2).  A star whose truncated position is off the grid, or
    whose brightness is not above 0.2, draws nothing. *)
Theorem render_stars_cells (g : Galaxy.t) (screen screen' : Galaxy.Screen) :
  Galaxy.render_stars g screen = Some screen' ->
  forall r c,
    grid_get screen' r c =
      match last (List.filter (draws_on g r c) (Galaxy.stars_ g)) with
      | Some s => star_glyph (Star.get_brightness s)
      | None => grid_get screen r c
      end.
Proof.
  unfold Galaxy.render_stars. generalize (Galaxy.stars_ g) as l. intros l.
  revert screen'. induction l as [|s l IH] using rev_ind; intros screen' Hrun r c.
  - simpl in Hrun. by injection Hrun as <-.
  - rewrite for_each_snoc in Hrun.
    destruct (for_each (Galaxy.render_star g) l screen) as [s1|] eqn:Hl; [|discriminate].
    cbn [mbind option_bind] in Hrun.
    rewrite (render_star_cells g s s1 screen' Hrun r c).
    rewrite List.filter_app. cbn [List.filter]. unfold draws_on at 2.
    destruct (star_cell g s) as [[sx sy]|]; [|rewrite app_nil_r; by apply IH].
    destruct (star_glyph (Star.get_brightness s)) as [ch|] eqn:Hg;
      [|rewrite app_nil_r; by apply IH].
    destruct (decide (r = sy /\ c = sx)) as [[-> ->]|Hne].
    + rewrite !Z.eqb_refl. cbn [andb]. rewrite last_snoc. by rewrite Hg.
    + assert ((sy =? r)%Z && (sx =? c)%Z = false) as ->.
      { apply not_true_is_false. rewrite andb_true_iff, !Z.eqb_eq. intros [-> ->].
        by apply Hne. }
      rewrite app_nil_r. by apply IH.
Qed.

(** *** A galaxy of negative size *)

(** X16.  The constructor takes a negative width or height without
    complaint, and [update] runs on the object it makes; but [render]
    never produces a frame for it, at any time: the construction of the
    grid throws before anything is drawn. *)
Theorem render_negative_size (canonical : nat -> Num.num) (w h : Z) (rng k : nat)
    (dt t : Num.num) (cout : string) :
  (w < 0 \/ h < 0)%Z ->
  Galaxy.render (Nat.iter k (Galaxy.update dt) (fst (Galaxy.new canonical w h rng))) t cout
    = None.
Proof.
  intros Hneg.
  destruct (new_grows canonical w h rng) as (_ & _ & _ & _ & Hw & Hh & _).
  cbn [fst Galaxy.empty Galaxy.width_ Galaxy.height_] in Hw, Hh.
  destruct (iter_update_fields dt k (fst (Galaxy.new canonical w h rng)))
    as (_ & Hw' & Hh' & _).
  unfold Galaxy.render, Galaxy.render_screen, Galaxy.blank_screen.
  rewrite Hw', Hh', Hw, Hh.
  destruct Hneg.
  - rewrite (proj2 (Z.leb_gt 0 w)) by lia. reflexivity.
  - rewrite (proj2 (Z.leb_gt 0 h)) by lia. rewrite andb_false_r. reflexivity.
Qed.

End Generic.

(** ** The code evaluated in binary64 *)

Section Binary64Examples.
#[local] Existing Instance Binary64.

(** The constant behind the argument reduction starts with the digits of
    pi. *)
Lemma PI_BIG_digits :
  (PI_BIG * 10 ^ 40 / 2 ^ 1536 = 31415926535897932384626433832795028841971)%Z.
Proof. vm_compute. reflexivity. Qed.

(** [cos] and [sin] at some landmarks, as the C library returns them. *)
Lemma float_trig_landmarks :
  float_cos 0 = 1%float /\ float_sin 0 = 0%float /\
  float_cos (Num.PI / #2)%num = 0x1.1a62633145c07p-54%float /\
  float_sin (Num.PI / #2)%num = 1%float /\
  float_cos Num.PI = (-1)%float /\
  float_sin Num.PI = 0x1.1a62633145c07p-53%float /\
  float_cos 7 = 0x1.81ff79ed92017p-1%float /\
  float_sin 7 = 0x1.50608c26d0a08p-1%float.
Proof. repeat split; vm_compute; reflexivity. Qed.

Lemma render_screen_glyphs_witness :
  let g := demo_galaxy in
  let screen := default [] (Galaxy.render_screen g) in
  (0 <= Galaxy.width_ g)%Z /\ (0 <= Galaxy.height_ g)%Z /\
  List.length screen = Z.to_nat (Galaxy.height_ g) /\
  Forall (fun row => List.length row = Z.to_nat (Galaxy.width_ g) /\
                     Forall (fun c => In c glyphs) row) screen.
Proof.
  intros g screen. apply (render_screen_glyphs g screen). vm_compute. reflexivity.
Defined.

Lemma accumulate_in_collection_order_witness :
  let g := demo_galaxy in
  let zero := replicate 35 (replicate 120 (Num.lit 0)) in
  let intensity' := default [] (Galaxy.accumulate_particles g zero) in
  grid_get intensity' 17 60 =
    (fun v => fold_left Num.add
       (map Particle.brightness (List.filter (lands_on g 17 60) (Galaxy.particles_ g))) v)
    <$> grid_get zero 17 60.
Proof.
  intros g zero intensity'.
  apply (accumulate_in_collection_order g zero intensity'). vm_compute. reflexivity.
Defined.

Lemma render_stars_cells_witness :
  let g := demo_galaxy in
  let blank := replicate 35 (replicate 120 " "%char) in
  let screen' := default [] (Galaxy.render_stars g blank) in
  grid_get screen' 28 54 =
    match last (List.filter (draws_on g 28 54) (Galaxy.stars_ g)) return option ascii with
    | Some s => star_glyph (Star.get_brightness s)
    | None => grid_get blank 28 54
    end.
Proof.
  intros g blank screen'.
  apply (render_stars_cells g blank screen'). vm_compute. reflexivity.
Defined.

Lemma render_negative_size_witness :
  Galaxy.render (A:=Binary64)
    (Nat.iter 2 (Galaxy.update dt) (fst (Galaxy.new demo_stream 120 (-3) 0)))
    (Num.lit 0.5) EmptyString = None.
Proof.
  apply (render_negative_size (A:=Binary64) demo_stream 120 (-3) 0 2 dt (Num.lit 0.5)
           EmptyString).
  right. lia.
Defined.

End Binary64Examples.

(** ** Further properties over the real numbers *)

Section RealExtras.
#[local] Existing Instance Real.
Local Open Scope R_scope.

Ltac real :=
  cbn [Num.num Num.lit Num.PI Num.add Num.sub Num.mul Num.div Num.neg
       Num.sqrt Num.cos Num.sin Num.gt Num.lt Num.of_int Num.to_int Real] in *;
  change (@Num.num Real) with R in *.
Ltac lits := unfold TWO_PI in *; real; unfold Q2R in *; cbn [Qnum Qden] in *.

(** X6.  [random_double(min, max)] with [min <= max] and a draw in [0, 1)
    returns a value in [min, max], below [max] when [min < max], and
    advances the engine by one draw. *)
Theorem random_double_range (canonical : nat -> R) (min_val max_val : R) (rng : nat) :
  0 <= canonical rng < 1 -> min_val <= max_val ->
  min_val <= fst (random_double canonical min_val max_val rng) <= max_val /\
  (min_val < max_val -> fst (random_double canonical min_val max_val rng) < max_val) /\
  snd (random_double canonical min_val max_val rng) = S rng.
Proof.
  intros Hu Hle. unfold random_double. cbn [fst snd]. real.
  pose proof (Rmult_le_pos (canonical rng) (max_val - min_val) ltac:(lra) ltac:(lra)).
  pose proof (Rmult_le_pos (1 - canonical rng) (max_val - min_val) ltac:(lra) ltac:(lra)).
  split; [lra|]. split; [|reflexivity]. intros Hlt.
  pose proof (Rmult_lt_0_compat (1 - canonical rng) (max_val - min_val)
                ltac:(lra) ltac:(lra)). lra.
Qed.

Lemma random_double_range_witness :
  -1 <= fst (random_double (fun _ => 0.25) (-1) 1 7) <= 1 /\
  (-1 < 1 -> fst (random_double (fun _ => 0.25) (-1) 1 7) < 1) /\
  snd (random_double (fun _ => 0.25) (-1) 1 7) = 8%nat.
Proof. apply (random_double_range (fun _ => 0.25) (-1) 1 7); lra. Defined.

(** *** Stars *)

(** X10.  A star of non-negative base brightness shines between 30% and
    100% of it, whatever its phase. *)
Theorem star_brightness_range (s : Star.t) :
  0 <= Star.base_brightness s ->
  0.3 * Star.base_brightness s <= Star.get_brightness s <= Star.base_brightness s.
Proof.
  intros Hb. unfold Star.get_brightness. real.
  pose proof (SIN_bound (Star.phase s)) as [Hlo Hhi].
  set (x := sin (Star.phase s)) in *. set (b := Star.base_brightness s) in *.
  assert (0.3 <= 0.3 + 0.7 * (0.5 + 0.5 * x) <= 1) as [H1 H2] by lra.
  split; nra.
Qed.

Lemma star_brightness_range_witness :
  0.3 * Star.base_brightness (Star.mk (A:=Real) (Vec2.mk (A:=Real) 5 7) 1 1.5 0.8)
    <= Star.get_brightness (Star.mk (A:=Real) (Vec2.mk (A:=Real) 5 7) 1 1.5 0.8)
    <= Star.base_brightness (Star.mk (A:=Real) (Vec2.mk (A:=Real) 5 7) 1 1.5 0.8).
Proof.
  apply (star_brightness_range (Star.mk (A:=Real) (Vec2.mk (A:=Real) 5 7) 1 1.5 0.8)).
  cbn [Star.base_brightness]. lra.
Defined.

(** *** The index into the gradient, band by band *)

(** X14.  For an intensity [i] with [0 <= 3 i] in the range of [int], the
    index chosen is [k < 9] exactly when [k <= 3 i < k + 1], and it is 9,
    the brightest glyph '@', exactly when [3 i >= 9]. *)
Theorem gradient_index_bands (i : R) (k : Z) :
  0 <= i * 3 < 2147483648 ->
  Galaxy.gradient_index i = Some k <->
  ((0 <= k <= 8)%Z /\ IZR k <= i * 3 < IZR k + 1) \/ (k = 9%Z /\ 9 <= i * 3).
Proof.
  intros Hi. rewrite gradient_index_Some by done.
  rewrite Rtrunc_nonneg by lra.
  pose proof (Zfloor_bound (i * 3)) as [Hlo Hhi].
  assert (0 <= Zfloor (i * 3))%Z as Hnn by (apply (Zfloor_lub 0); lra).
  unfold clamp. split.
  - intros [= <-]. destruct (Zfloor (i * 3) <? 0)%Z eqn:E1; [lia|].
    destruct (9 <? Zfloor (i * 3))%Z eqn:E2.
    + right. split; [done|]. apply Z.ltb_lt in E2. apply IZR_lt in E2. lra.
    + apply Z.ltb_ge in E2. destruct (decide (Zfloor (i * 3) = 9%Z)) as [E9|Hne].
      * right. rewrite E9 in *. split; [done | lra].
      * left. split; [lia | lra].
  - intros [[Hk Hband]|[-> H9]].
    + rewrite (Zfloor_eq k) by lra.
      rewrite (proj2 (Z.ltb_ge _ _)) by lia. rewrite (proj2 (Z.ltb_ge _ _)) by lia. done.
    + assert (9 <= Zfloor (i * 3))%Z by (apply (Zfloor_lub 9); lra).
      rewrite (proj2 (Z.ltb_ge _ _)) by lia.
      destruct (9 <? Zfloor (i * 3))%Z eqn:E2; [done|].
      apply Z.ltb_ge in E2. f_equal. lia.
Qed.

Lemma gradient_index_bands_witness :
  Galaxy.gradient_index 1.5 = Some 4%Z <->
  ((0 <= 4 <= 8)%Z /\ IZR 4 <= 1.5 * 3 < IZR 4 + 1) \/ (4%Z = 9%Z /\ 9 <= 1.5 * 3).
Proof. apply (gradient_index_bands 1.5 4). lra. Defined.

(** *** The states the program reaches *)

(** A value strictly between [INT_MIN - 1] and [INT_MAX + 1] converts to
    [int]. *)
Lemma to_int_range (r : R) : -2147483649 < r < 2147483648 -> is_Some (Num.to_int r).
Proof.
  intros Hr. exists (Rtrunc r). apply to_int_Some. split; [done|].
  apply in_int_range_spec. change (2 ^ 31)%Z with 2147483648%Z.
  unfold Rtrunc. case_decide.
  - pose proof (Zfloor_bound r).
    assert (0 <= Zfloor r)%Z by (apply (Zfloor_lub 0); lra).
    assert (Zfloor r < 2147483648)%Z by (apply lt_IZR; lra). lia.
  - pose proof (Zceil_bound r).
    assert (-2147483649 < Zceil r)%Z by (apply lt_IZR; lra).
    assert (Zceil r < 1)%Z by (apply lt_IZR; lra). lia.
Qed.

(** A particle no further than 18 from the centre of a grid whose sizes
    are [int]s projects to a position that converts to [int]. *)
Lemma particle_cell_defined (g : Galaxy.t) (p : Particle.t) (w h : Z) :
  Galaxy.center_ g = Vec2.mk (A:=Real) (IZR w / 2) (IZR h / 2) ->
  Galaxy.aspect_ratio_ g = 2 ->
  (0 <= w <= 2147483647)%Z -> (0 <= h <= 2147483647)%Z ->
  0 <= Particle.radius p <= 18 ->
  is_Some (particle_cell g p).
Proof.
  intros Hc Ha [Hw0 Hw1] [Hh0 Hh1] Hr. unfold particle_cell, Particle.get_position.
  rewrite Hc, Ha. cbn [Vec2.x Vec2.y]. real.
  apply IZR_le in Hw0, Hw1, Hh0, Hh1.
  pose proof (COS_bound (Particle.angle p)) as [Hc0 Hc1].
  pose proof (SIN_bound (Particle.angle p)) as [Hs0 Hs1].
  set (r := Particle.radius p) in *.
  set (c := cos (Particle.angle p)) in *. set (s := sin (Particle.angle p)) in *.
  assert (- 18 <= r * c <= 18) by nra.
  assert (- 18 <= r * s <= 18) by nra.
  destruct (to_int_range (IZR w / 2 + r * c * 2)) as [px Hpx]; [lra|].
  destruct (to_int_range (IZR h / 2 + r * s)) as [py Hpy]; [lra|].
  real. rewrite Hpx. cbn [mbind option_bind]. rewrite Hpy. cbn [mbind option_bind].
  eauto.
Qed.

Lemma render_eq (g : Galaxy.t) (screen : Galaxy.Screen) (t : R) (cout : string) :
  Galaxy.render_screen g = Some screen -> 0 <= t < 2147483648 ->
  Galaxy.render g t cout =
    Some (String.append (String.append cout move_cursor_home)
            (String.append (lines screen)
               (String.append (String newline " Time: ")
                  (String.append (show_int (Rtrunc t)) "s")))).
Proof.
  intros Hrun Ht. unfold Galaxy.render, Galaxy.output. rewrite Hrun.
  cbn [mbind option_bind]. rewrite frame_eq by done. reflexivity.
Qed.

Section Reachable.
Variable canonical : nat -> R.
Hypothesis canonical_range : forall n, 0 <= canonical n < 1.

Lemma new_particles_ok (w h : Z) (n : nat) :
  Forall (fun p => 0.5 <= Particle.radius p < 18 /\ 0 <= Particle.brightness p <= 1)
    (Galaxy.particles_ (fst (Galaxy.new canonical w h n))).
Proof.
  destruct (new_spec canonical canonical_range w h n) as (-> & _).
  rewrite !Forall_app. split; [|split].
  - eapply Forall_impl; [apply (arm_particles_ok canonical canonical_range); lia|].
    intros p (Hr & _ & _ & Hb). split; lra.
  - eapply Forall_impl; [apply (arm_particles_ok canonical canonical_range); lia|].
    intros p (Hr & _ & _ & Hb). split; lra.
  - eapply Forall_impl; [apply (core_particles_ok canonical canonical_range)|].
    intros p (Hr & _ & _ & Hb). split; lra.
Qed.

Lemma new_length_particles (w h : Z) (n : nat) :
  List.length (Galaxy.particles_ (fst (Galaxy.new canonical w h n))) = 360%nat.
Proof.
  destruct (new_spec canonical canonical_range w h n) as (-> & _).
  by rewrite !length_app, !length_arm_particles, length_core_particles.
Qed.

(** In every state the program can reach on a grid whose sizes are
    non-negative [int]s, all the passes of [render] have a result. *)
Lemma reachable_render_screen (w h : Z) (n k : nat) (dt : R) :
  (0 <= w <= 2147483647)%Z -> (0 <= h <= 2147483647)%Z ->
  exists screen,
    Galaxy.render_screen
      (Nat.iter k (Galaxy.update dt) (fst (Galaxy.new canonical w h n))) = Some screen /\
    grid_shape (Z.to_nat h) (Z.to_nat w) screen.
Proof.
  intros Hw Hh.
  pose proof (new_particles_ok w h n) as Hparts.
  pose proof (new_length_particles w h n) as Hlen.
  destruct (new_spec canonical canonical_range w h n) as (_ & Hs & Hc & Hw0 & Hh0 & Ha).
  remember (fst (Galaxy.new (A:=Real) canonical w h n)) as g0 eqn:Hg0. clear Hg0.
  destruct (iter_update_fields (A:=Real) dt k g0) as (Hc' & Hw' & Hh' & Ha' & _).
  pose proof (iter_update_particles (A:=Real) dt k g0) as Hps.
  pose proof (iter_update_stars (A:=Real) dt k g0) as Hss.
  remember (Nat.iter k (Galaxy.update (A:=Real) dt) g0) as g eqn:Hg. clear Hg.
  rewrite Hc in Hc'. rewrite Hw0 in Hw'. rewrite Hh0 in Hh'. rewrite Ha in Ha'.
  assert (0 <= IZR w <= 2147483647 /\ 0 <= IZR h <= 2147483647) as [HwR HhR].
  { destruct Hw as [Hw1 Hw2], Hh as [Hh1 Hh2]. apply IZR_le in Hw1, Hw2, Hh1, Hh2. lra. }
  apply render_screen_shape.
  - rewrite Hh'. symmetry. apply Z2Nat.id. lia.
  - rewrite Hw'. symmetry. apply Z2Nat.id. lia.
  - rewrite Hss. apply Forall_map. eapply Forall_impl; [exact Hs|].
    intros s (Hx & Hy & _). destruct (iter_star_fields (A:=Real) dt k s) as (-> & _).
    specialize (Hx ltac:(lia)). specialize (Hy ltac:(lia)).
    split; apply to_int_range; lra.
  - rewrite Hps. apply Forall_map. eapply Forall_impl; [exact Hparts|].
    intros p [Hr Hb]. destruct (iter_particle_fields (A:=Real) dt k p) as (Hr' & _ & Hb' & _).
    split.
    + apply (particle_cell_defined g _ w h Hc' Ha' Hw Hh). rewrite Hr'. lra.
    + rewrite Hb'. exact Hb.
  - rewrite Hps, length_map, Hlen. lia.
  - rewrite Hc'. cbn [Vec2.x]. apply to_int_range. real. lra.
  - rewrite Hc'. cbn [Vec2.y]. apply to_int_range. real. lra.
Qed.

(** X11.  The background stars stay where the constructor put them, on
    the rectangle [0, w] x [0, h], keep a speed in [0.5, 2) and a base
    brightness in [0.3, 1), and so twinkle with a brightness in
    [0.09, 1) in every state the program reaches. *)
Theorem stars_stay_in_place (w h : Z) (n k : nat) (dt : R) :
  (0 <= w)%Z -> (0 <= h)%Z ->
  Forall (fun s => 0 <= Vec2.x (Star.pos s) <= IZR w /\
                   0 <= Vec2.y (Star.pos s) <= IZR h /\
                   0.5 <= Star.speed s < 2 /\
                   0.3 <= Star.base_brightness s < 1 /\
                   0.09 <= Star.get_brightness s < 1)
    (Galaxy.stars_ (Nat.iter k (Galaxy.update dt) (fst (Galaxy.new canonical w h n)))).
Proof.
  intros Hw Hh. rewrite iter_update_stars. apply Forall_map.
  destruct (new_spec canonical canonical_range w h n) as (_ & Hs & _).
  eapply Forall_impl; [exact Hs|].
  intros s (Hx & Hy & _ & Hsp & Hb).
  destruct (iter_star_fields (A:=Real) dt k s) as (Hpos & Hspeed & Hbase).
  unfold Star.get_brightness. rewrite Hpos, Hspeed, Hbase.
  split; [auto|]. split; [auto|]. split; [done|]. split; [done|]. real.
  pose proof (SIN_bound (Star.phase (Nat.iter k (Star.update dt) s))) as [Hlo Hhi].
  set (x := sin _) in *. set (b := Star.base_brightness s) in *.
  assert (0.3 <= 0.3 + 0.7 * (0.5 + 0.5 * x) <= 1) as [H1 H2] by lra.
  split; nra.
Qed.

(** X12.  Differential rotation: an arm particle turns at
    [0.15 / sqrt radius] and a core particle at [0.3 / sqrt (radius + 0.5)],
    so of two arm particles, or of two core particles, the one nearer the
    centre never turns more slowly. *)
Theorem differential_rotation (w h : Z) (n : nat) :
  exists arms core,
    Galaxy.particles_ (fst (Galaxy.new canonical w h n)) = arms ++ core /\
    List.length arms = 300%nat /\ List.length core = 60%nat /\
    Forall (fun p => 1.5 <= Particle.radius p < 18 /\
                     Particle.angular_velocity p = 0.15 / sqrt (Particle.radius p)) arms /\
    Forall (fun p => 0.5 <= Particle.radius p < 3 /\
                     Particle.angular_velocity p = 0.3 / sqrt (Particle.radius p + 0.5)) core /\
    (forall p q, (In p arms /\ In q arms) \/ (In p core /\ In q core) ->
       Particle.radius p <= Particle.radius q ->
       Particle.angular_velocity q <= Particle.angular_velocity p).
Proof.
  destruct (new_spec canonical canonical_range w h n) as (Hp & _).
  assert (forall arm m, (0 <= arm <= 1)%Z ->
    Forall (fun p => 1.5 <= Particle.radius p < 18 /\
                     Particle.angular_velocity p = 0.15 / sqrt (Particle.radius p))
      (arm_particles canonical arm m)) as Harm.
  { intros arm m Harm. apply Forall_forall. intros p Hin.
    pose proof (proj1 (Forall_forall _ _)
                  (arm_particles_ok canonical canonical_range arm m Harm) p Hin)
      as (Hr & _).
    split; [exact Hr|]. apply list_elem_of_In in Hin. unfold arm_particles in Hin.
    apply in_map_iff in Hin as (j & <- & _). reflexivity. }
  assert (forall m,
    Forall (fun p => 0.5 <= Particle.radius p < 3 /\
                     Particle.angular_velocity p = 0.3 / sqrt (Particle.radius p + 0.5))
      (core_particles canonical m)) as Hcore.
  { intros m. apply Forall_forall. intros p Hin.
    pose proof (proj1 (Forall_forall _ _)
                  (core_particles_ok canonical canonical_range m) p Hin) as (Hr & _).
    split; [exact Hr|]. apply list_elem_of_In in Hin. unfold core_particles in Hin.
    apply in_map_iff in Hin as (j & <- & _). reflexivity. }
  assert (forall c x y : R, 0 < c -> 0 < x <= y -> c / sqrt y <= c / sqrt x) as Hmono.
  { intros c x y Hc [Hx Hxy].
    assert (0 < sqrt x) by (apply sqrt_lt_R0; lra).
    assert (sqrt x <= sqrt y) by (apply sqrt_le_1; lra).
    assert (/ sqrt y <= / sqrt x) by (apply Rinv_le_contravar; lra).
    unfold Rdiv. nra. }
  exists (arm_particles canonical 0 n ++ arm_particles canonical 1 (n + 300)),
    (core_particles canonical (n + 600)).
  assert (Forall (fun p => 1.5 <= Particle.radius p < 18 /\
                     Particle.angular_velocity p = 0.15 / sqrt (Particle.radius p))
            (arm_particles canonical 0 n ++ arm_particles canonical 1 (n + 300))) as Harms.
  { apply Forall_app. split; apply Harm; lia. }
  split; [by rewrite Hp, <- app_assoc|].
  split; [by rewrite length_app, !length_arm_particles|].
  split; [apply length_core_particles|].
  split; [exact Harms|]. split; [apply Hcore|].
  intros p q [[Hip Hiq]|[Hip Hiq]] Hle.
  - apply list_elem_of_In in Hip, Hiq.
    destruct (proj1 (Forall_forall _ _) Harms p Hip) as (Hrp & ->).
    destruct (proj1 (Forall_forall _ _) Harms q Hiq) as (Hrq & ->).
    apply Hmono; lra.
  - apply list_elem_of_In in Hip, Hiq.
    destruct (proj1 (Forall_forall _ _) (Hcore (n + 600)%nat) p Hip) as (Hrp & ->).
    destruct (proj1 (Forall_forall _ _) (Hcore (n + 600)%nat) q Hiq) as (Hrq & ->).
    apply Hmono; lra.
Qed.

(** X13.  [render] is defined in every state the program can reach: on a
    grid whose sizes are non-negative [int]s, after the constructor and any
    number of [update]s with any [dt], for any elapsed time from 0 up to
    the range of [int], every cast and every index is in range (allocation
    is taken to succeed), the grid
    has [h] rows of [w] glyphs, and [cout] receives the cursor-home
    sequence, the rows and the status line. *)
Theorem render_defined_when_reachable (w h : Z) (n k : nat) (dt t : R) (cout : string) :
  (0 <= w <= 2147483647)%Z -> (0 <= h <= 2147483647)%Z -> 0 <= t < 2147483648 ->
  exists screen,
    Galaxy.render_screen
      (Nat.iter k (Galaxy.update dt) (fst (Galaxy.new canonical w h n))) = Some screen /\
    List.length screen = Z.to_nat h /\
    Forall (fun row => List.length row = Z.to_nat w) screen /\
    Galaxy.render
      (Nat.iter k (Galaxy.update dt) (fst (Galaxy.new canonical w h n))) t cout =
      Some (String.append (String.append cout move_cursor_home)
              (String.append (lines screen)
                 (String.append (String newline " Time: ")
                    (String.append (show_int (Rtrunc t)) "s")))).
Proof.
  intros Hw Hh Ht.
  destruct (reachable_render_screen w h n k dt Hw Hh) as (screen & Hrun & Hlen & Hrows).
  exists screen. split; [exact Hrun|]. split; [exact Hlen|]. split; [exact Hrows|].
  by apply render_eq.
Qed.

(** *** The program as a whole *)

(** What one turn of the loop of [main] sends to [cout]. *)
Definition frame_text (screen : Galaxy.Screen) (t : R) : string :=
  String.append move_cursor_home
    (String.append (lines screen)
       (String.append (String newline " Time: ")
          (String.append (show_int (Rtrunc t)) "s"))).

Definition film (frames : list (Galaxy.Screen * R)) : string :=
  foldr (fun f rest => String.append (frame_text (fst f) (snd f)) rest) EmptyString frames.

Lemma main_loop (clock : list R) (k : nat) (cout : string) :
  Forall (fun t => 0 <= t < 2147483648) clock ->
  exists screens,
    List.length screens = List.length clock /\
    (forall i s, screens !! i = Some s ->
       Galaxy.render_screen
         (Nat.iter (k + i) (Galaxy.update (dt (A:=Real)))
            (fst (Galaxy.new canonical 120 35 0))) = Some s /\
       grid_shape 35 120 s) /\
    for_each frame_step clock
      (Nat.iter k (Galaxy.update (dt (A:=Real))) (fst (Galaxy.new canonical 120 35 0)), cout) =
      Some (Nat.iter (k + List.length clock) (Galaxy.update (dt (A:=Real)))
              (fst (Galaxy.new canonical 120 35 0)),
            String.append cout (film (zip screens clock))).
Proof.
  revert k cout. induction clock as [|t clock IH]; intros k cout Hclock.
  - exists []. split; [done|]. split; [intros i s Hi; by rewrite lookup_nil in Hi|].
    cbn [for_each List.length zip zip_with film foldr]. rewrite append_empty_r.
    by rewrite Nat.add_0_r.
  - apply Forall_cons in Hclock as [Ht Hclock].
    destruct (reachable_render_screen 120 35 0 k (dt (A:=Real)) ltac:(lia) ltac:(lia))
      as (screen & Hrun & Hshape).
    change (Z.to_nat 35) with 35%nat in Hshape. change (Z.to_nat 120) with 120%nat in Hshape.
    destruct (IH (S k) (String.append cout (frame_text screen t)) Hclock)
      as (screens & Hlen & Hscreens & Hloop).
    exists (screen :: screens). split; [cbn [List.length]; by rewrite Hlen|]. split.
    + intros [|i] s Hi.
      * injection Hi as <-. by rewrite Nat.add_0_r.
      * rewrite Nat.add_succ_r. by apply Hscreens.
    + cbn [for_each]. unfold frame_step at 1. cbn [fst snd].
      rewrite (render_eq _ screen t cout Hrun Ht). cbn [mbind option_bind].
      rewrite (append_assoc cout move_cursor_home). fold (frame_text screen t).
      change (Galaxy.update dt (Nat.iter k (Galaxy.update dt) ?g))
        with (Nat.iter (S k) (Galaxy.update (A:=Real) dt) g).
      rewrite Hloop. cbn [List.length zip zip_with film foldr fst snd].
      rewrite Nat.add_succ_r. f_equal. f_equal. by rewrite append_assoc.
Qed.

Lemma iter_zero {T : Type} (f : T -> T) (x : T) : Nat.iter 0 f x = x.
Proof. reflexivity. Qed.

Lemma dt_eq : dt (A:=Real) = 0.1.
Proof. reflexivity. Qed.

(** [main] on the POSIX terminal: a 120 x 35 galaxy and the loop. *)
Lemma main_unfold (clock : list R) :
  main canonical clock =
    snd <$> for_each frame_step clock
      (fst (Galaxy.new canonical 120 35 0), String.append hide_cursor clear_screen).
Proof. reflexivity. Qed.

(** X15.  The program on the POSIX terminal, cut after any number of
    turns of its loop: for any draws in [0, 1) and any clock readings from
    0 up to the range of [int], no turn fails.  [cout] receives the
    hide-cursor and clear-screen sequences and then, per turn, the
    cursor-home sequence, 35 rows of 120 glyphs and the status line; the
    grid of turn [i] is the galaxy of the constructor after [i] updates
    by 0.1. *)
Theorem main_plays_frames (clock : list R) :
  Forall (fun t => 0 <= t < 2147483648) clock ->
  exists screens,
    List.length screens = List.length clock /\
    (forall i s, screens !! i = Some s ->
       Galaxy.render_screen
         (Nat.iter i (Galaxy.update 0.1) (fst (Galaxy.new canonical 120 35 0))) = Some s /\
       List.length s = 35%nat /\ Forall (fun row => List.length row = 120%nat) s) /\
    main canonical clock =
      Some (String.append (String.append hide_cursor clear_screen)
              (film (zip screens clock))).
Proof.
  intros Hclock.
  destruct (main_loop clock 0 (String.append hide_cursor clear_screen) Hclock)
    as (screens & Hlen & Hscreens & Hloop).
  exists screens. split; [exact Hlen|]. split.
  - intros i s Hi. specialize (Hscreens i s Hi).
    rewrite Nat.add_0_l, dt_eq in Hscreens. exact Hscreens.
  - rewrite main_unfold. rewrite iter_zero in Hloop. rewrite Hloop. reflexivity.
Qed.

End Reachable.

(** A stream of draws, all one half. *)
Definition even_stream (n : nat) : R := 0.5.

Lemma even_stream_range (n : nat) : 0 <= even_stream n < 1.
Proof. unfold even_stream. lra. Qed.

Lemma stars_stay_in_place_witness :
  Forall (fun s => 0 <= Vec2.x (Star.pos s) <= IZR 120 /\
                   0 <= Vec2.y (Star.pos s) <= IZR 35 /\
                   0.5 <= Star.speed s < 2 /\
                   0.3 <= Star.base_brightness s < 1 /\
                   0.09 <= Star.get_brightness s < 1)
    (Galaxy.stars_ (Nat.iter 3 (Galaxy.update 0.1) (fst (Galaxy.new even_stream 120 35 0)))).
Proof. apply (stars_stay_in_place even_stream even_stream_range 120 35 0 3 0.1); lia. Defined.

Lemma differential_rotation_witness :
  exists arms core,
    Galaxy.particles_ (fst (Galaxy.new even_stream 120 35 0)) = arms ++ core /\
    List.length arms = 300%nat /\ List.length core = 60%nat /\
    Forall (fun p => 1.5 <= Particle.radius p < 18 /\
                     Particle.angular_velocity p = 0.15 / sqrt (Particle.radius p)) arms /\
    Forall (fun p => 0.5 <= Particle.radius p < 3 /\
                     Particle.angular_velocity p = 0.3 / sqrt (Particle.radius p + 0.5)) core /\
    (forall p q, (In p arms /\ In q arms) \/ (In p core /\ In q core) ->
       Particle.radius p <= Particle.radius q ->
       Particle.angular_velocity q <= Particle.angular_velocity p).
Proof. exact (differential_rotation even_stream even_stream_range 120 35 0). Defined.

Lemma render_defined_when_reachable_witness :
  exists screen,
    Galaxy.render_screen
      (Nat.iter 3 (Galaxy.update 0.1) (fst (Galaxy.new even_stream 120 35 0))) = Some screen /\
    List.length screen = Z.to_nat 35 /\
    Forall (fun row => List.length row = Z.to_nat 120) screen /\
    Galaxy.render
      (Nat.iter 3 (Galaxy.update 0.1) (fst (Galaxy.new even_stream 120 35 0))) 7.9 EmptyString =
      Some (String.append (String.append EmptyString move_cursor_home)
              (String.append (lines screen)
                 (String.append (String newline " Time: ")
                    (String.append (show_int (Rtrunc 7.9)) "s")))).
Proof.
  apply (render_defined_when_reachable even_stream even_stream_range 120 35 0 3 0.1 7.9
           EmptyString); [lia | lia | lra].
Defined.

Lemma main_plays_frames_witness :
  exists screens,
    List.length screens = List.length [0; 0.05; 0.1] /\
    (forall i s, screens !! i = Some s ->
       Galaxy.render_screen
         (Nat.iter i (Galaxy.update 0.1) (fst (Galaxy.new even_stream 120 35 0))) = Some s /\
       List.length s = 35%nat /\ Forall (fun row => List.length row = 120%nat) s) /\
    main even_stream [0; 0.05; 0.1] =
      Some (String.append (String.append hide_cursor clear_screen)
              (film (zip screens [0; 0.05; 0.1]))).
Proof.
  apply (main_plays_frames even_stream even_stream_range [0; 0.05; 0.1]).
  repeat constructor; lra.
Defined.

End RealExtras.
